(** * Insurance guarantee cost calculator (APG_Kenya1.py)

    The script reads ten parameters from its form widgets and derives from
    them, in straight-line arithmetic (lines 51-84), the guarantee values,
    durations, bank costs, savings and credit-line figures of two financing
    structures.  This file embeds that block, its helper [calc_costs] and the
    formatting of the figures, and proves the properties the specification
    states about them.

    The script is transcribed over an interface [PyNumber] of the operators
    it uses, by operand types, and run on [float]: IEEE 754 binary64 as
    CPython computes it (Rocq's primitive floats).  Where an operand is a
    Python [int] (month counts, the number of phases) the model keeps it in
    [Z] and converts it where CPython does.

    What each statement is proved on:

    - the shape of the result (which figure is which operator applied to
      which figures) and the absence of exceptions: for any implementation
      of the interface that returns on the declared ranges, binary64 being
      one;
    - the figures of the scenario, the sign of the total costs, the negative
      credit-line saving: on binary64, through the specification of the float
      operations ([Prim2SF], [SFmul], [SFdiv], [SFadd]);
    - the two algebraic identities (scaling with the contract value,
      independence of the number of phases): on binary64, where they hold as
      long as no figure underflows or overflows and, for the second, the
      number of phases is a power of two; the runs that round differently
      stand next to them.

    The second part of the file follows the figures to the screen: the
    exceptions and edge cases of the block, and the texts [format_currency]
    and the one-decimal format make of a float. *)

From Stdlib Require Import Qabs String Ascii List DecimalString DecimalN.
Import ListNotations.
From Stdlib Require Import ZArith QArith Floats Bool Lia.

Local Open Scope Z_scope.

(** ** Exceptions and results *)

(** The two exceptions arithmetic can raise in the block: a zero divisor, and
    an [int] operand too large for a [float]. *)
Inductive exn : Type :=
  | ZeroDivisionError
  | OverflowError.

Inductive result (A : Type) : Type :=
  | Ok (a : A)
  | Raise (e : exn).

Arguments Ok {A} a.
Arguments Raise {A} e.

Definition bind {A B : Type} (c : result A) (k : A -> result B) : result B :=
  match c with
  | Ok a => k a
  | Raise e => Raise e
  end.

Notation "x <- c ;; k" := (bind c (fun x => k))
  (at level 61, c at next level, right associativity).

(** ** The number interface *)

(** The operators of the script, by operand types.  [fdiv_int] is
    [float / int] (line 54), [fmul_int] is [float * int] (lines 72-73),
    [int_truediv] is [int / int] (lines 59-62).  The comparisons, [freal] and
    [ffinite] are not used by the script: they state the parameter ranges. *)
Class PyNumber (F : Type) : Type := {
  fmul : F -> F -> F;
  fadd : F -> F -> F;
  fsub : F -> F -> F;
  fdiv_int : F -> Z -> result F;
  fmul_int : F -> Z -> result F;
  int_truediv : Z -> Z -> result F;
  fleb : F -> F -> bool;
  fltb : F -> F -> bool;
  freal : Q -> F;
  ffinite : F -> bool
}.

(** *** Instance: binary64 *)

(** A Python [int] as an exact (unrounded) spec float. *)
Definition SF_of_int (z : Z) : spec_float :=
  match z with
  | Z0 => S754_zero false
  | Zpos m => S754_finite false m 0
  | Zneg m => S754_finite true m 0
  end.

Definition SF_is_infinity (x : spec_float) : bool :=
  match x with
  | S754_infinity _ => true
  | _ => false
  end.

(** [float(n)]: the nearest binary64 value, ties to even; [OverflowError] when
    the integer is too large for a float. *)
Definition float_of_int (z : Z) : result float :=
  let x := binary_normalize prec emax z 0 false in
  if SF_is_infinity x then Raise OverflowError else Ok (SF2Prim x).

(** [x / n] with [x] a float and [n] an int: the int is converted first. *)
Definition float_div_int (x : float) (n : Z) : result float :=
  y <- float_of_int n ;;
  if PrimFloat.is_zero y then Raise ZeroDivisionError else Ok (x / y)%float.

(** [x * n] with [x] a float and [n] an int. *)
Definition float_mul_int (x : float) (n : Z) : result float :=
  y <- float_of_int n ;;
  Ok (x * y)%float.

(** [a / b] on two ints: the correctly rounded quotient of the integers
    themselves, [OverflowError] when it is too large for a float. *)
Definition float_int_truediv (a b : Z) : result float :=
  if b =? 0 then Raise ZeroDivisionError
  else
    let q := SFdiv prec emax (SF_of_int a) (SF_of_int b) in
    if SF_is_infinity q then Raise OverflowError else Ok (SF2Prim q).

(** The binary64 value a decimal constant denotes. *)
Definition float_of_Q (q : Q) : float :=
  SF2Prim (SFdiv prec emax (SF_of_int (Qnum q)) (SF_of_int (Z.pos (Qden q)))).

#[export] Instance PyNumber_float : PyNumber float := {
  fmul := PrimFloat.mul;
  fadd := PrimFloat.add;
  fsub := PrimFloat.sub;
  fdiv_int := float_div_int;
  fmul_int := float_mul_int;
  int_truediv := float_int_truediv;
  fleb := PrimFloat.leb;
  fltb := PrimFloat.ltb;
  freal := float_of_Q;
  ffinite := PrimFloat.is_finite
}.

(** ** The program *)

Section Program.

Context {F : Type} `{PyNumber F}.

(** The ten parameters the block reads (lines 33-45), with the script's
    variable names; the percentages and the rate are the values after the
    widgets' division by 100. *)
Record InputParameters : Type := {
  total_contract_value : F;
  advance_payment_percent_orig : F;
  pg_percent_orig : F;
  construction_duration_orig : Z;
  dlp_duration_orig : Z;
  num_phases : Z;
  pg_percent_phased : F;
  construction_duration_phased : Z;
  dlp_duration_phased : Z;
  bank_fee_rate : F
}.

(** Every variable the block assigns (lines 51-84). *)
Record CalculationResult : Type := {
  apg_value_orig : F;
  pg_value_orig : F;
  phase_contract_value : F;
  apg_value_phased : F;
  pg_value_phased : F;
  apg_duration_orig : F;
  pg_duration_orig : F;
  apg_duration_phased : F;
  pg_duration_phased : F;
  apg_annual_cost_orig : F;
  apg_total_cost_orig : F;
  pg_annual_cost_orig : F;
  pg_total_cost_orig : F;
  total_cost_orig : F;
  apg_annual_cost_phased : F;
  apg_cost_per_phase : F;
  pg_annual_cost_phased : F;
  pg_cost_per_phase : F;
  apg_total_cost_phased : F;
  pg_total_cost_phased : F;
  total_cost_phased : F;
  apg_savings : F;
  pg_savings : F;
  total_savings : F;
  credit_line_orig : F;
  credit_line_phased : F;
  credit_line_savings : F
}.

(** Lines 9-13. *)
Definition calc_costs (value rate duration_years : F) : F * F :=
  let annual := fmul value rate in
  let total := fmul annual duration_years in
  (annual, total).

(** Lines 51-84, statement by statement. *)
Definition calculations (p : InputParameters) : result CalculationResult :=
  (* Values *)
  let apg_value_orig := fmul (total_contract_value p) (advance_payment_percent_orig p) in
  let pg_value_orig := fmul (total_contract_value p) (pg_percent_orig p) in
  phase_contract_value <- fdiv_int (total_contract_value p) (num_phases p) ;;
  let apg_value_phased := fmul phase_contract_value (advance_payment_percent_orig p) in
  let pg_value_phased := fmul phase_contract_value (pg_percent_phased p) in
  (* Durations (years) *)
  apg_duration_orig <- int_truediv (construction_duration_orig p) 12 ;;
  pg_duration_orig <-
    int_truediv (construction_duration_orig p + dlp_duration_orig p) 12 ;;
  apg_duration_phased <- int_truediv (construction_duration_phased p) 12 ;;
  pg_duration_phased <-
    int_truediv (construction_duration_phased p + dlp_duration_phased p) 12 ;;
  (* Costs *)
  let '(apg_annual_cost_orig, apg_total_cost_orig) :=
    calc_costs apg_value_orig (bank_fee_rate p) apg_duration_orig in
  let '(pg_annual_cost_orig, pg_total_cost_orig) :=
    calc_costs pg_value_orig (bank_fee_rate p) pg_duration_orig in
  let total_cost_orig := fadd apg_total_cost_orig pg_total_cost_orig in
  let '(apg_annual_cost_phased, apg_cost_per_phase) :=
    calc_costs apg_value_phased (bank_fee_rate p) apg_duration_phased in
  let '(pg_annual_cost_phased, pg_cost_per_phase) :=
    calc_costs pg_value_phased (bank_fee_rate p) pg_duration_phased in
  apg_total_cost_phased <- fmul_int apg_cost_per_phase (num_phases p) ;;
  pg_total_cost_phased <- fmul_int pg_cost_per_phase (num_phases p) ;;
  let total_cost_phased := fadd apg_total_cost_phased pg_total_cost_phased in
  (* Savings *)
  let apg_savings := fsub apg_total_cost_orig apg_total_cost_phased in
  let pg_savings := fsub pg_total_cost_orig pg_total_cost_phased in
  let total_savings := fsub total_cost_orig total_cost_phased in
  (* Credit line *)
  let credit_line_orig := apg_value_orig in
  let credit_line_phased := fadd apg_value_phased pg_value_phased in
  let credit_line_savings := fsub credit_line_orig credit_line_phased in
  Ok {| apg_value_orig := apg_value_orig;
        pg_value_orig := pg_value_orig;
        phase_contract_value := phase_contract_value;
        apg_value_phased := apg_value_phased;
        pg_value_phased := pg_value_phased;
        apg_duration_orig := apg_duration_orig;
        pg_duration_orig := pg_duration_orig;
        apg_duration_phased := apg_duration_phased;
        pg_duration_phased := pg_duration_phased;
        apg_annual_cost_orig := apg_annual_cost_orig;
        apg_total_cost_orig := apg_total_cost_orig;
        pg_annual_cost_orig := pg_annual_cost_orig;
        pg_total_cost_orig := pg_total_cost_orig;
        total_cost_orig := total_cost_orig;
        apg_annual_cost_phased := apg_annual_cost_phased;
        apg_cost_per_phase := apg_cost_per_phase;
        pg_annual_cost_phased := pg_annual_cost_phased;
        pg_cost_per_phase := pg_cost_per_phase;
        apg_total_cost_phased := apg_total_cost_phased;
        pg_total_cost_phased := pg_total_cost_phased;
        total_cost_phased := total_cost_phased;
        apg_savings := apg_savings;
        pg_savings := pg_savings;
        total_savings := total_savings;
        credit_line_orig := credit_line_orig;
        credit_line_phased := credit_line_phased;
        credit_line_savings := credit_line_savings |}.

(** ** The declared parameter ranges *)

Definition in_rangeZ (lo hi n : Z) : bool := (lo <=? n) && (n <=? hi).

Definition in_rangeF (lo hi : Q) (x : F) : bool :=
  fleb (freal lo) x && fleb x (freal hi).

Definition validb (p : InputParameters) : bool :=
  fltb (freal 0) (total_contract_value p)
  && ffinite (total_contract_value p)
  && in_rangeF 0 1 (advance_payment_percent_orig p)
  && in_rangeF 0 1 (pg_percent_orig p)
  && in_rangeZ 1 24 (construction_duration_orig p)
  && in_rangeZ 0 12 (dlp_duration_orig p)
  && in_rangeZ 1 5 (num_phases p)
  && in_rangeF 0 1 (pg_percent_phased p)
  && in_rangeZ 1 6 (construction_duration_phased p)
  && in_rangeZ 0 12 (dlp_duration_phased p)
  && in_rangeF (1 # 1000) (1 # 10) (bank_fee_rate p).

Definition valid (p : InputParameters) : Prop := validb p = true.

End Program.

Arguments InputParameters F : clear implicits.
Arguments CalculationResult F : clear implicits.

(** ** The scenario of the specification *)

(** The slider values are percentages; the script divides them by 100
    (lines 34-35, 42, 45). *)
Definition percent (x : float) : float := (x / 100)%float.

Definition scenario : InputParameters float :=
  {| total_contract_value := 320000000%float;
     advance_payment_percent_orig := percent 40;
     pg_percent_orig := percent 30;
     construction_duration_orig := 12;
     dlp_duration_orig := 6;
     num_phases := 4;
     pg_percent_phased := percent 10;
     construction_duration_phased := 3;
     dlp_duration_phased := 6;
     bank_fee_rate := percent 1 |}.

(** The same parameters with another contract value, or another number of
    phases. *)
Definition with_total_contract_value {F : Type} (p : InputParameters F) (v : F)
  : InputParameters F :=
  {| total_contract_value := v;
     advance_payment_percent_orig := advance_payment_percent_orig p;
     pg_percent_orig := pg_percent_orig p;
     construction_duration_orig := construction_duration_orig p;
     dlp_duration_orig := dlp_duration_orig p;
     num_phases := num_phases p;
     pg_percent_phased := pg_percent_phased p;
     construction_duration_phased := construction_duration_phased p;
     dlp_duration_phased := dlp_duration_phased p;
     bank_fee_rate := bank_fee_rate p |}.

Definition with_num_phases {F : Type} (p : InputParameters F) (n : Z)
  : InputParameters F :=
  {| total_contract_value := total_contract_value p;
     advance_payment_percent_orig := advance_payment_percent_orig p;
     pg_percent_orig := pg_percent_orig p;
     construction_duration_orig := construction_duration_orig p;
     dlp_duration_orig := dlp_duration_orig p;
     num_phases := n;
     pg_percent_phased := pg_percent_phased p;
     construction_duration_phased := construction_duration_phased p;
     dlp_duration_phased := dlp_duration_phased p;
     bank_fee_rate := bank_fee_rate p |}.

(** ** Sign classes of binary64 values *)

(** Zero of either sign, a positive float or plus infinity: what compares
    [>= 0]. *)
Definition nonneg_sf (x : spec_float) : Prop :=
  match x with
  | S754_zero _ => True
  | S754_infinity s => s = false
  | S754_finite s _ _ => s = false
  | S754_nan => False
  end.

(** Zero of either sign or a positive float. *)
Definition fin_nonneg (x : spec_float) : Prop :=
  match x with
  | S754_zero _ => True
  | S754_finite s _ _ => s = false
  | _ => False
  end.

(** A positive float. *)
Definition pos_fin (x : spec_float) : Prop :=
  match x with
  | S754_finite s _ _ => s = false
  | _ => False
  end.

(** The float 1.0 as mantissa and exponent. *)
Definition SF_one : spec_float := S754_finite false 4503599627370496 (-52).

(** The smallest positive float. *)
Definition tiny : float := 0x1p-1074.

(** [pos_fin] as a check. *)
Definition is_pos_fin (x : spec_float) : bool :=
  match x with
  | S754_finite false _ _ => true
  | _ => false
  end.

(** A divisor the division lemmas cover: 1.0, or a float of at least 2 with
    a full mantissa. *)
Definition is_divisor (x : spec_float) : bool :=
  match x with
  | S754_finite false my ey =>
      ((Z.pos my =? 4503599627370496) && (ey =? -52))
      || ((4503599627370496 <=? Z.pos my) && (Zdigits2 (Z.pos my) =? 53)
          && (-51 <=? ey))
  | _ => false
  end.

(** ** Helpers of the proofs *)

Definition is_ok {A : Type} (c : result A) : bool :=
  match c with
  | Ok _ => true
  | Raise _ => false
  end.

(** A check of [f] on the [len] integers from [lo] on. *)
Fixpoint all_from (lo : Z) (len : nat) (f : Z -> bool) : bool :=
  match len with
  | O => true
  | S k => f lo && all_from (lo + 1) k f
  end.

(** What the proofs need of a number type: the three mixed-type operators
    raise nothing on the month counts and phase counts the form allows, and a
    zero phase count is a [ZeroDivisionError]. *)
Class PyNumberLaws (F : Type) `{PyNumber F} : Prop := {
  fdiv_int_zero : forall x : F, fdiv_int x 0 = Raise ZeroDivisionError;
  fdiv_int_phases :
    forall (x : F) (n : Z), 1 <= n <= 5 -> exists y, fdiv_int x n = Ok y;
  fmul_int_phases :
    forall (x : F) (n : Z), 1 <= n <= 5 -> exists y, fmul_int x n = Ok y;
  int_truediv_months :
    forall a : Z, 0 <= a <= 36 -> exists d : F, int_truediv a 12 = Ok d
}.

(** The integer part of the declared ranges. *)
Record valid_counts {F : Type} (p : InputParameters F) : Prop := {
  construction_orig_range : 1 <= construction_duration_orig p <= 24;
  dlp_orig_range : 0 <= dlp_duration_orig p <= 12;
  num_phases_range : 1 <= num_phases p <= 5;
  construction_phased_range : 1 <= construction_duration_phased p <= 6;
  dlp_phased_range : 0 <= dlp_duration_phased p <= 12
}.

(** The result record in closed form, given what the fallible operators
    returned: the phase contract value, the four durations and the two phased
    totals. *)
Definition closed_form {F : Type} `{PyNumber F} (p : InputParameters F)
    (pcv d_apg_o d_pg_o d_apg_p d_pg_p t_apg t_pg : F) : CalculationResult F :=
  let tcv := total_contract_value p in
  let rate := bank_fee_rate p in
  let apg_o := fmul tcv (advance_payment_percent_orig p) in
  let pg_o := fmul tcv (pg_percent_orig p) in
  let apg_p := fmul pcv (advance_payment_percent_orig p) in
  let pg_p := fmul pcv (pg_percent_phased p) in
  let c_apg_o := fmul (fmul apg_o rate) d_apg_o in
  let c_pg_o := fmul (fmul pg_o rate) d_pg_o in
  {| apg_value_orig := apg_o;
     pg_value_orig := pg_o;
     phase_contract_value := pcv;
     apg_value_phased := apg_p;
     pg_value_phased := pg_p;
     apg_duration_orig := d_apg_o;
     pg_duration_orig := d_pg_o;
     apg_duration_phased := d_apg_p;
     pg_duration_phased := d_pg_p;
     apg_annual_cost_orig := fmul apg_o rate;
     apg_total_cost_orig := c_apg_o;
     pg_annual_cost_orig := fmul pg_o rate;
     pg_total_cost_orig := c_pg_o;
     total_cost_orig := fadd c_apg_o c_pg_o;
     apg_annual_cost_phased := fmul apg_p rate;
     apg_cost_per_phase := fmul (fmul apg_p rate) d_apg_p;
     pg_annual_cost_phased := fmul pg_p rate;
     pg_cost_per_phase := fmul (fmul pg_p rate) d_pg_p;
     apg_total_cost_phased := t_apg;
     pg_total_cost_phased := t_pg;
     total_cost_phased := fadd t_apg t_pg;
     apg_savings := fsub c_apg_o t_apg;
     pg_savings := fsub c_pg_o t_pg;
     total_savings := fsub (fadd c_apg_o c_pg_o) (fadd t_apg t_pg);
     credit_line_orig := apg_o;
     credit_line_phased := fadd apg_p pg_p;
     credit_line_savings := fsub apg_o (fadd apg_p pg_p) |}.

(** One run of the block: what each fallible operator returned, and the
    record built from it. *)
Record run {F : Type} `{PyNumber F} (p : InputParameters F)
    (r : CalculationResult F) : Prop := {
  run_phase_contract_value :
    fdiv_int (total_contract_value p) (num_phases p) = Ok (phase_contract_value r);
  run_apg_duration_orig :
    int_truediv (construction_duration_orig p) 12 = Ok (apg_duration_orig r);
  run_pg_duration_orig :
    int_truediv (construction_duration_orig p + dlp_duration_orig p) 12
      = Ok (pg_duration_orig r);
  run_apg_duration_phased :
    int_truediv (construction_duration_phased p) 12 = Ok (apg_duration_phased r);
  run_pg_duration_phased :
    int_truediv (construction_duration_phased p + dlp_duration_phased p) 12
      = Ok (pg_duration_phased r);
  run_apg_total_cost_phased :
    fmul_int (apg_cost_per_phase r) (num_phases p) = Ok (apg_total_cost_phased r);
  run_pg_total_cost_phased :
    fmul_int (pg_cost_per_phase r) (num_phases p) = Ok (pg_total_cost_phased r);
  run_closed_form :
    r = closed_form p (phase_contract_value r)
          (apg_duration_orig r) (pg_duration_orig r)
          (apg_duration_phased r) (pg_duration_phased r)
          (apg_total_cost_phased r) (pg_total_cost_phased r)
}.

(** The declared ranges of the amounts, in binary64, as sign classes. *)
Record valid_floats (p : InputParameters float) : Prop := {
  total_contract_value_pos_fin : pos_fin (Prim2SF (total_contract_value p));
  advance_payment_percent_orig_fin_nonneg :
    fin_nonneg (Prim2SF (advance_payment_percent_orig p));
  pg_percent_orig_fin_nonneg : fin_nonneg (Prim2SF (pg_percent_orig p));
  pg_percent_phased_fin_nonneg : fin_nonneg (Prim2SF (pg_percent_phased p));
  bank_fee_rate_pos_fin : pos_fin (Prim2SF (bank_fee_rate p))
}.

(** [r'] is [r] with every value, cost, saving and credit-line figure
    multiplied by [k], and the same durations, up to the equality [eqv] of the
    number type. *)
Record scaled_by {F : Type} `{PyNumber F} (eqv : F -> F -> Prop) (k : F)
    (r r' : CalculationResult F) : Prop := {
  scaled_apg_value_orig : eqv (apg_value_orig r') (fmul k (apg_value_orig r));
  scaled_pg_value_orig : eqv (pg_value_orig r') (fmul k (pg_value_orig r));
  scaled_phase_contract_value : eqv (phase_contract_value r') (fmul k (phase_contract_value r));
  scaled_apg_value_phased : eqv (apg_value_phased r') (fmul k (apg_value_phased r));
  scaled_pg_value_phased : eqv (pg_value_phased r') (fmul k (pg_value_phased r));
  same_apg_duration_orig : eqv (apg_duration_orig r') (apg_duration_orig r);
  same_pg_duration_orig : eqv (pg_duration_orig r') (pg_duration_orig r);
  same_apg_duration_phased : eqv (apg_duration_phased r') (apg_duration_phased r);
  same_pg_duration_phased : eqv (pg_duration_phased r') (pg_duration_phased r);
  scaled_apg_annual_cost_orig : eqv (apg_annual_cost_orig r') (fmul k (apg_annual_cost_orig r));
  scaled_apg_total_cost_orig : eqv (apg_total_cost_orig r') (fmul k (apg_total_cost_orig r));
  scaled_pg_annual_cost_orig : eqv (pg_annual_cost_orig r') (fmul k (pg_annual_cost_orig r));
  scaled_pg_total_cost_orig : eqv (pg_total_cost_orig r') (fmul k (pg_total_cost_orig r));
  scaled_total_cost_orig : eqv (total_cost_orig r') (fmul k (total_cost_orig r));
  scaled_apg_annual_cost_phased : eqv (apg_annual_cost_phased r') (fmul k (apg_annual_cost_phased r));
  scaled_apg_cost_per_phase : eqv (apg_cost_per_phase r') (fmul k (apg_cost_per_phase r));
  scaled_pg_annual_cost_phased : eqv (pg_annual_cost_phased r') (fmul k (pg_annual_cost_phased r));
  scaled_pg_cost_per_phase : eqv (pg_cost_per_phase r') (fmul k (pg_cost_per_phase r));
  scaled_apg_total_cost_phased : eqv (apg_total_cost_phased r') (fmul k (apg_total_cost_phased r));
  scaled_pg_total_cost_phased : eqv (pg_total_cost_phased r') (fmul k (pg_total_cost_phased r));
  scaled_total_cost_phased : eqv (total_cost_phased r') (fmul k (total_cost_phased r));
  scaled_apg_savings : eqv (apg_savings r') (fmul k (apg_savings r));
  scaled_pg_savings : eqv (pg_savings r') (fmul k (pg_savings r));
  scaled_total_savings : eqv (total_savings r') (fmul k (total_savings r));
  scaled_credit_line_orig : eqv (credit_line_orig r') (fmul k (credit_line_orig r));
  scaled_credit_line_phased : eqv (credit_line_phased r') (fmul k (credit_line_phased r));
  scaled_credit_line_savings : eqv (credit_line_savings r') (fmul k (credit_line_savings r))
}.

(** ** Presentation: the formatting of numbers

    [format_currency] (lines 15-16) is [f"${num:,.0f}"], and the summary
    table prints the durations with [f"{x:.1f}"] (lines 107-108, 119-120).
    Both are Python's fixed-point presentation of a float: the exact binary
    value, correctly rounded (ties to even) at the last printed place, with
    the sign of the float in front, [nan] and [inf] for the values that are
    no numbers, and with the [,] option a comma before every group of three
    digits of the integer part. *)

(** The integer nearest to [a / d], ties to the even one. *)
Definition round_half_even (a d : Z) : Z :=
  let q := a / d in
  let r := a mod d in
  match 2 * r ?= d with
  | Lt => q
  | Eq => if Z.even q then q else q + 1
  | Gt => q + 1
  end.

(** The integer nearest to [10 ^ prec * m * 2 ^ e]. *)
Definition scaled_round (prec : nat) (m : positive) (e : Z) : Z :=
  let a := 10 ^ Z.of_nat prec * Z.pos m in
  if 0 <=? e then a * 2 ^ e else round_half_even a (2 ^ (- e)).

(** The decimal digits of a natural number. *)
Definition digits_of (n : Z) : list ascii :=
  list_ascii_of_string (NilZero.string_of_uint (N.to_uint (Z.to_N n))).

(** The digits from the right, with a comma whenever a group of three is
    full and a digit follows; [room] is what is left of the current group. *)
Fixpoint group_from_right (rev_digits : list ascii) (room : nat) : list ascii :=
  match rev_digits with
  | [] => []
  | c :: l =>
      match room with
      | O => ","%char :: c :: group_from_right l 2
      | S k => c :: group_from_right l k
      end
  end.

Definition group3 (ds : list ascii) : list ascii :=
  rev (group_from_right (rev ds) 3).

(** The text of [n / 10 ^ prec]: at least one digit before the point. *)
Definition fixed_text (grouping : bool) (prec : nat) (n : Z) : list ascii :=
  let ds := digits_of n in
  let ds := repeat "0"%char (prec + 1 - length ds) ++ ds in
  let int_part := firstn (length ds - prec) ds in
  let frac_part := skipn (length ds - prec) ds in
  (if grouping then group3 int_part else int_part)
  ++ match prec with
     | O => []
     | S _ => "."%char :: frac_part
     end.

Definition sign_text (s : bool) : list ascii := if s then ["-"%char] else [].

(** [format(x, ",.<prec>f")] with [grouping], [format(x, ".<prec>f")]
    without. *)
Definition format_f (grouping : bool) (prec : nat) (x : float) : string :=
  string_of_list_ascii
    match Prim2SF x with
    | S754_nan => list_ascii_of_string "nan"
    | S754_infinity s => sign_text s ++ list_ascii_of_string "inf"
    | S754_zero s => sign_text s ++ fixed_text grouping prec 0
    | S754_finite s m e => sign_text s ++ fixed_text grouping prec (scaled_round prec m e)
    end.

(** Lines 15-16. *)
Definition format_currency (num : float) : string :=
  String "$"%char (format_f true 0 num).


(** *** Reading a formatted number back *)

Definition is_separator (c : ascii) : bool :=
  Ascii.eqb c ","%char || Ascii.eqb c "."%char.

Definition keep (c : ascii) : bool := negb (is_separator c).

(** The sign and the digits of a formatted number, separators dropped:
    the number times [10 ^ prec]. *)
Definition read_fixed (s : string) : option (bool * N) :=
  let l := list_ascii_of_string s in
  let '(negative, l) :=
    match l with
    | c :: l' => if Ascii.eqb c "-"%char then (true, l') else (false, l)
    | [] => (false, l)
    end in
  let digits := filter keep l in
  option_map (fun d => (negative, N.of_uint d))
    (NilZero.uint_of_string (string_of_list_ascii digits)).

Definition read_currency (s : string) : option (bool * N) :=
  match s with
  | String c s' => if Ascii.eqb c "$"%char then read_fixed s' else None
  | EmptyString => None
  end.

Definition SF_sign (x : spec_float) : bool :=
  match x with
  | S754_zero s | S754_infinity s | S754_finite s _ _ => s
  | S754_nan => false
  end.

Definition SF_abs_value (x : spec_float) : Q :=
  match x with
  | S754_finite _ m e =>
      if 0 <=? e then inject_Z (Z.pos m * 2 ^ e)
      else Z.pos m # Z.to_pos (2 ^ (- e))
  | _ => 0%Q
  end.

Definition SF_scaled (prec : nat) (x : spec_float) : Z :=
  match x with
  | S754_finite _ m e => scaled_round prec m e
  | _ => 0
  end.

Definition is_digit (c : ascii) : bool :=
  match c with
  | "0" | "1" | "2" | "3" | "4" | "5" | "6" | "7" | "8" | "9" => true
  | _ => false
  end%char.

Definition read_digits (l : list ascii) : option N :=
  option_map N.of_uint (NilZero.uint_of_string (string_of_list_ascii l)).

Definition not_minus (c : ascii) : Prop := Ascii.eqb c "-"%char = false.

Definition SF_is_finite (x : spec_float) : bool :=
  match x with
  | S754_zero _ | S754_finite _ _ _ => true
  | _ => false
  end.

(** A cell that shows neither [nan] nor a negative amount. *)
Definition shows_no_negative_amount (cell : string) : Prop :=
  cell = "$inf"%string \/
  exists (s : bool) (n : N),
    read_currency cell = Some (s, n) /\ (s = true -> n = 0%N).

(** Every value, cost, saving and credit-line figure of a result satisfies
    [P]. *)
Record amounts_all {F : Type} (P : F -> Prop) (r : CalculationResult F)
  : Prop := {
  all_apg_value_orig : P (apg_value_orig r);
  all_pg_value_orig : P (pg_value_orig r);
  all_phase_contract_value : P (phase_contract_value r);
  all_apg_value_phased : P (apg_value_phased r);
  all_pg_value_phased : P (pg_value_phased r);
  all_apg_annual_cost_orig : P (apg_annual_cost_orig r);
  all_apg_total_cost_orig : P (apg_total_cost_orig r);
  all_pg_annual_cost_orig : P (pg_annual_cost_orig r);
  all_pg_total_cost_orig : P (pg_total_cost_orig r);
  all_total_cost_orig : P (total_cost_orig r);
  all_apg_annual_cost_phased : P (apg_annual_cost_phased r);
  all_apg_cost_per_phase : P (apg_cost_per_phase r);
  all_pg_annual_cost_phased : P (pg_annual_cost_phased r);
  all_pg_cost_per_phase : P (pg_cost_per_phase r);
  all_apg_total_cost_phased : P (apg_total_cost_phased r);
  all_pg_total_cost_phased : P (pg_total_cost_phased r);
  all_total_cost_phased : P (total_cost_phased r);
  all_apg_savings : P (apg_savings r);
  all_pg_savings : P (pg_savings r);
  all_total_savings : P (total_savings r);
  all_credit_line_orig : P (credit_line_orig r);
  all_credit_line_phased : P (credit_line_phased r);
  all_credit_line_savings : P (credit_line_savings r)
}.

Definition is_zero_sf (x : spec_float) : Prop :=
  match x with
  | S754_zero _ => True
  | _ => False
  end.

(** The value of a float in units of [2 ^ -1074], the spacing of the
    smallest floats. *)
Definition SF_units (m : positive) (e : Z) : Z := Z.pos m * 2 ^ (e + 1074).

(** The tenths of a year nearest to [a] months, a tie going to the even
    tenth. *)
Definition duration_tenths (a : Z) : Z := round_half_even (10 * a) 12.

(** Whether the duration of [a] months, printed with one decimal (lines
    107-108, 119-120), reads as [duration_tenths a]. *)
Definition duration_text_ok (a : Z) : bool :=
  match float_int_truediv a 12 with
  | Ok d =>
      match read_fixed (format_f false 1 d) with
      | Some (false, n) => Z.of_N n =? duration_tenths a
      | _ => false
      end
  | Raise _ => false
  end.


(** ** Scaling by a power of two in binary64

    Doubling a float, or dividing it by 2 or 4, only moves its exponent, and
    the rounding of a product, quotient, sum or difference commutes with that
    move, as long as the rounded result is no subnormal and the scaled result
    no overflow.  The predicates below say so of the figures of a run. *)

(** [x] with its exponent raised by [k]. *)
Definition SF_scale (k : Z) (x : spec_float) : spec_float :=
  match x with
  | S754_finite s m e => S754_finite s m (e + k)
  | _ => x
  end.

(** A finite float of magnitude from [2^-1019] to below [2^1022]. *)
Definition SF_in_range (x : spec_float) : Prop :=
  match x with
  | S754_finite _ _ e => -1071 <= e <= 969
  | _ => False
  end.

(** The float [2^k]. *)
Definition SF_pow2 (k : Z) : spec_float :=
  S754_finite false 4503599627370496 (k - 52).

(** A float far enough from both ends of the binary64 range to be scaled by
    2 or 4 without underflow or overflow: [2^-1019 <= |z| <= 2^1021]. *)
Definition in_range (z : float) : bool :=
  ((0x1p-1019 <=? abs z) && (abs z <=? 0x1p1021))%float.

(** A product or sum [z] of [x] and [y] scales: one of the two is zero, or
    [z] is in range. *)
Definition scales (x y z : float) : bool :=
  is_zero x || is_zero y || in_range z.

(** A product [z] of [x] and a nonzero factor scales. *)
Definition scales_from (x z : float) : bool := is_zero x || in_range z.

(** A difference [z] of [x] and [y] scales: one of the two is zero, the two
    are equal, or [z] is in range. *)
Definition diff_scales (x y z : float) : bool :=
  is_zero x || is_zero y || (x =? y)%float || in_range z.

(** [x'] is [x] with its exponent raised by [k], and [x] is zero or in
    range. *)
Definition scaled (k : Z) (x x' : float) : Prop :=
  Prim2SF x' = SF_scale k (Prim2SF x) /\
  (is_zero_sf (Prim2SF x) \/ SF_in_range (Prim2SF x)).

(** The float of a phase count from 1 to 5: a full mantissa and an exponent
    from -52 to -50. *)
Definition is_phase_count (y : spec_float) : bool :=
  match y with
  | S754_finite false my ey =>
      (Zdigits2 (Z.pos my) =? 53) && (-52 <=? ey) && (ey <=? -50)
  | _ => false
  end.

(** The contract value, the contract value of one phase and every product of
    the phased costs (lines 55-56, 69-70) are clear of underflow and
    overflow. *)
Definition phased_costs_in_range (p : InputParameters float)
    (r : CalculationResult float) : bool :=
  let rate := bank_fee_rate p in
  in_range (total_contract_value p)
  && in_range (phase_contract_value r)
  && forallb (fun '(x, y, z) => scales x y z)
       [ (phase_contract_value r, advance_payment_percent_orig p,
          apg_value_phased r);
         (apg_value_phased r, rate, apg_annual_cost_phased r);
         (apg_annual_cost_phased r, apg_duration_phased r,
          apg_cost_per_phase r);
         (phase_contract_value r, pg_percent_phased p, pg_value_phased r);
         (pg_value_phased r, rate, pg_annual_cost_phased r);
         (pg_annual_cost_phased r, pg_duration_phased r,
          pg_cost_per_phase r) ].

(** Every product, quotient, sum and difference of the block (lines 51-84)
    is clear of underflow and overflow. *)
Definition figures_in_range (p : InputParameters float)
    (r : CalculationResult float) : bool :=
  let tcv := total_contract_value p in
  let rate := bank_fee_rate p in
  phased_costs_in_range p r
  && forallb (fun '(x, y, z) => scales x y z)
       [ (tcv, advance_payment_percent_orig p, apg_value_orig r);
         (tcv, pg_percent_orig p, pg_value_orig r);
         (apg_value_orig r, rate, apg_annual_cost_orig r);
         (apg_annual_cost_orig r, apg_duration_orig r, apg_total_cost_orig r);
         (pg_value_orig r, rate, pg_annual_cost_orig r);
         (pg_annual_cost_orig r, pg_duration_orig r, pg_total_cost_orig r);
         (apg_total_cost_orig r, pg_total_cost_orig r, total_cost_orig r);
         (apg_total_cost_phased r, pg_total_cost_phased r,
          total_cost_phased r);
         (apg_value_phased r, pg_value_phased r, credit_line_phased r) ]
  && forallb (fun '(x, z) => scales_from x z)
       [ (apg_cost_per_phase r, apg_total_cost_phased r);
         (pg_cost_per_phase r, pg_total_cost_phased r) ]
  && forallb (fun '(x, y, z) => diff_scales x y z)
       [ (apg_total_cost_orig r, apg_total_cost_phased r, apg_savings r);
         (pg_total_cost_orig r, pg_total_cost_phased r, pg_savings r);
         (total_cost_orig r, total_cost_phased r, total_savings r);
         (credit_line_orig r, credit_line_phased r, credit_line_savings r) ].

(** The block returns on [p] and no figure of the run underflows or comes
    within a factor 4 of overflow. *)
Definition no_underflow (p : InputParameters float) : bool :=
  match calculations p with
  | Ok r => figures_in_range p r
  | Raise _ => false
  end.

(** The same of the phased costs alone. *)
Definition phased_no_underflow (p : InputParameters float) : bool :=
  match calculations p with
  | Ok r => phased_costs_in_range p r
  | Raise _ => false
  end.

(** * Proofs *)

(** ** Binary64 raises nothing on the declared ranges *)

Lemma is_ok_Ok {A : Type} (c : result A) : is_ok c = true -> exists a, c = Ok a.
Proof. destruct c as [a|e]; [eauto | discriminate]. Qed.

Lemma all_from_spec (f : Z -> bool) (len : nat) :
  forall lo, all_from lo len f = true ->
  forall n, lo <= n < lo + Z.of_nat len -> f n = true.
Proof.
  induction len as [|k IH]; intros lo Hall n Hn.
  - lia.
  - cbn [all_from] in Hall. apply andb_true_iff in Hall as [Hlo Hrest].
    destruct (Z.eq_dec n lo) as [->|Hne]; [exact Hlo|].
    apply (IH (lo + 1) Hrest). lia.
Qed.

#[export] Instance PyNumberLaws_float : PyNumberLaws float.
Proof.
  split.
  - reflexivity.
  - intros x n Hn. apply is_ok_Ok.
    apply (all_from_spec (fun k => is_ok (float_div_int x k)) 5 1); [|lia].
    vm_compute. reflexivity.
  - intros x n Hn. apply is_ok_Ok.
    apply (all_from_spec (fun k => is_ok (float_mul_int x k)) 5 1); [|lia].
    vm_compute. reflexivity.
  - intros a Ha. apply is_ok_Ok.
    apply (all_from_spec (fun k => is_ok (float_int_truediv k 12)) 37 0); [|lia].
    vm_compute. reflexivity.
Qed.

(** ** What the block computes, for any number type *)

Lemma in_rangeZ_spec (lo hi n : Z) : in_rangeZ lo hi n = true <-> lo <= n <= hi.
Proof. unfold in_rangeZ. rewrite andb_true_iff, !Z.leb_le. tauto. Qed.

Section Generic.

Context {F : Type} `{PyNumberLaws F}.

Implicit Types (p : InputParameters F) (r : CalculationResult F).

Lemma valid_valid_counts p : valid p -> valid_counts p.
Proof.
  unfold valid, validb. rewrite !andb_true_iff, !in_rangeZ_spec.
  intros Hv. decompose [and] Hv. split; lia.
Qed.

(** Whenever the block returns, it returns a run. *)
Lemma calculations_Ok_run p r : calculations p = Ok r -> run p r.
Proof.
  unfold calculations, calc_costs.
  destruct (fdiv_int (total_contract_value p) (num_phases p))
    as [pcv|] eqn:Hpcv; [cbn [bind] | discriminate].
  destruct (int_truediv (construction_duration_orig p) 12)
    as [d1|] eqn:Hd1; [cbn [bind] | discriminate].
  destruct (int_truediv (construction_duration_orig p + dlp_duration_orig p) 12)
    as [d2|] eqn:Hd2; [cbn [bind] | discriminate].
  destruct (int_truediv (construction_duration_phased p) 12)
    as [d3|] eqn:Hd3; [cbn [bind] | discriminate].
  destruct (int_truediv (construction_duration_phased p + dlp_duration_phased p) 12)
    as [d4|] eqn:Hd4; [cbn [bind] | discriminate].
  match goal with
  | |- context [bind (fmul_int ?x ?n)] =>
      destruct (fmul_int x n) as [t1|] eqn:Ht1; [cbn [bind] | discriminate]
  end.
  match goal with
  | |- context [bind (fmul_int ?x ?n)] =>
      destruct (fmul_int x n) as [t2|] eqn:Ht2; [cbn [bind] | discriminate]
  end.
  intros [= <-]. split; cbn; try assumption. reflexivity.
Qed.

(** On valid parameters the block returns. *)
Lemma calculations_valid_Ok p : valid p -> exists r, calculations p = Ok r.
Proof.
  intros Hv. destruct (valid_valid_counts p Hv) as [Hco Hdo Hn Hcp Hdp].
  unfold calculations, calc_costs.
  destruct (fdiv_int_phases (total_contract_value p) _ Hn) as [pcv ->].
  destruct (int_truediv_months (construction_duration_orig p))
    as [d1 ->]; [lia|].
  destruct (int_truediv_months
              (construction_duration_orig p + dlp_duration_orig p))
    as [d2 ->]; [lia|].
  destruct (int_truediv_months (construction_duration_phased p))
    as [d3 ->]; [lia|].
  destruct (int_truediv_months
              (construction_duration_phased p + dlp_duration_phased p))
    as [d4 ->]; [lia|].
  cbn [bind].
  match goal with
  | |- context [bind (fmul_int ?x ?n)] =>
      destruct (fmul_int_phases x _ Hn) as [t1 ->]; cbn [bind]
  end.
  match goal with
  | |- context [bind (fmul_int ?x ?n)] =>
      destruct (fmul_int_phases x _ Hn) as [t2 ->]; cbn [bind]
  end.
  eauto.
Qed.

Lemma calculations_valid_run p :
  valid p -> exists r, calculations p = Ok r /\ run p r.
Proof.
  intros Hv. destruct (calculations_valid_Ok p Hv) as [r Hr].
  exists r. split; [exact Hr | exact (calculations_Ok_run p r Hr)].
Qed.

(** A zero phase count is the division by zero of line 54. *)
Lemma calculations_zero_phases p :
  num_phases p = 0 -> calculations p = Raise ZeroDivisionError.
Proof.
  intros Hn. unfold calculations. rewrite Hn, fdiv_int_zero. reflexivity.
Qed.

(** Reads a goal about the fields of a run off its closed form. *)
Ltac by_closed_form Hrun :=
  let H1 := fresh in let H2 := fresh in let H3 := fresh in
  let H4 := fresh in let H5 := fresh in let H6 := fresh in
  let H7 := fresh in let Hcf := fresh "Hcf" in
  destruct Hrun as [H1 H2 H3 H4 H5 H6 H7 Hcf];
  repeat split; try assumption;
  rewrite Hcf; reflexivity.

(** C2. On valid parameters the block returns, and the figures of the
    original structure are those of the closed-form algorithm: the two
    guarantee values are the contract value times the two percentages, the two
    durations are the month counts over 12, each annual cost is value times
    rate, each total cost is value times rate times duration (in that order),
    and the total is the sum of the two total costs. *)
Theorem original_structure_closed_form p :
  valid p ->
  exists r,
    calculations p = Ok r /\
    apg_value_orig r
      = fmul (total_contract_value p) (advance_payment_percent_orig p) /\
    pg_value_orig r = fmul (total_contract_value p) (pg_percent_orig p) /\
    int_truediv (construction_duration_orig p) 12 = Ok (apg_duration_orig r) /\
    int_truediv (construction_duration_orig p + dlp_duration_orig p) 12
      = Ok (pg_duration_orig r) /\
    apg_annual_cost_orig r = fmul (apg_value_orig r) (bank_fee_rate p) /\
    apg_total_cost_orig r
      = fmul (fmul (apg_value_orig r) (bank_fee_rate p)) (apg_duration_orig r) /\
    pg_annual_cost_orig r = fmul (pg_value_orig r) (bank_fee_rate p) /\
    pg_total_cost_orig r
      = fmul (fmul (pg_value_orig r) (bank_fee_rate p)) (pg_duration_orig r) /\
    total_cost_orig r = fadd (apg_total_cost_orig r) (pg_total_cost_orig r).
Proof.
  intros Hv. destruct (calculations_valid_run p Hv) as [r [Hr Hrun]].
  exists r. split; [exact Hr|]. by_closed_form Hrun.
Qed.

(** C3. On valid parameters the phase contract value is the contract value
    over the number of phases, and the phased advance-payment guarantee is
    that value times the advance-payment percentage of the original structure.
    The parameters have no phased advance-payment percentage: any other run
    with the same contract value, number of phases and original percentage
    gives the same phased advance-payment guarantee, whatever else differs. *)
Theorem apg_value_phased_reuses_orig_percent p :
  valid p ->
  exists r,
    calculations p = Ok r /\
    fdiv_int (total_contract_value p) (num_phases p)
      = Ok (phase_contract_value r) /\
    apg_value_phased r
      = fmul (phase_contract_value r) (advance_payment_percent_orig p) /\
    forall q r',
      calculations q = Ok r' ->
      total_contract_value q = total_contract_value p ->
      num_phases q = num_phases p ->
      advance_payment_percent_orig q = advance_payment_percent_orig p ->
      apg_value_phased r' = apg_value_phased r.
Proof.
  intros Hv. destruct (calculations_valid_run p Hv) as [r [Hr Hrun]].
  exists r. split; [exact Hr|].
  assert (Hapg : forall q s, run q s ->
            apg_value_phased s
              = fmul (phase_contract_value s) (advance_payment_percent_orig q)).
  { intros q s Hs. by_closed_form Hs. }
  split; [exact (run_phase_contract_value p r Hrun)|].
  split; [exact (Hapg p r Hrun)|].
  intros q r' Hr' Htcv Hn Hadv.
  pose proof (calculations_Ok_run q r' Hr') as Hrun'.
  rewrite (Hapg q r' Hrun'), (Hapg p r Hrun), Hadv. f_equal.
  pose proof (run_phase_contract_value q r' Hrun') as Hq.
  rewrite Htcv, Hn, (run_phase_contract_value p r Hrun) in Hq.
  now injection Hq.
Qed.

(** C4. On valid parameters the two phased durations are the phased month
    counts over 12; the costs of one phase are computed as the original costs
    are: the annual cost is the phased value times the rate and the cost of
    one phase is that times the phased duration, which is what [calc_costs]
    returns for the phased and for the original figures alike; each phased
    total is the cost of one phase times the number of phases, and the phased
    total cost is the sum of the two. *)
Theorem phased_structure_costs p :
  valid p ->
  exists r,
    calculations p = Ok r /\
    int_truediv (construction_duration_phased p) 12
      = Ok (apg_duration_phased r) /\
    int_truediv (construction_duration_phased p + dlp_duration_phased p) 12
      = Ok (pg_duration_phased r) /\
    apg_annual_cost_phased r = fmul (apg_value_phased r) (bank_fee_rate p) /\
    apg_cost_per_phase r
      = fmul (fmul (apg_value_phased r) (bank_fee_rate p))
          (apg_duration_phased r) /\
    pg_annual_cost_phased r = fmul (pg_value_phased r) (bank_fee_rate p) /\
    pg_cost_per_phase r
      = fmul (fmul (pg_value_phased r) (bank_fee_rate p))
          (pg_duration_phased r) /\
    (apg_annual_cost_phased r, apg_cost_per_phase r)
      = calc_costs (apg_value_phased r) (bank_fee_rate p) (apg_duration_phased r) /\
    (pg_annual_cost_phased r, pg_cost_per_phase r)
      = calc_costs (pg_value_phased r) (bank_fee_rate p) (pg_duration_phased r) /\
    (apg_annual_cost_orig r, apg_total_cost_orig r)
      = calc_costs (apg_value_orig r) (bank_fee_rate p) (apg_duration_orig r) /\
    (pg_annual_cost_orig r, pg_total_cost_orig r)
      = calc_costs (pg_value_orig r) (bank_fee_rate p) (pg_duration_orig r) /\
    fmul_int (apg_cost_per_phase r) (num_phases p)
      = Ok (apg_total_cost_phased r) /\
    fmul_int (pg_cost_per_phase r) (num_phases p)
      = Ok (pg_total_cost_phased r) /\
    total_cost_phased r
      = fadd (apg_total_cost_phased r) (pg_total_cost_phased r).
Proof.
  intros Hv. destruct (calculations_valid_run p Hv) as [r [Hr Hrun]].
  exists r. split; [exact Hr|]. by_closed_form Hrun.
Qed.

(** C5. On valid parameters each savings figure is the one subtraction of the
    phased figure from the original one, the original credit line is the
    original advance-payment guarantee, the phased credit line is the sum of
    the two phased guarantees, and the credit-line saving is their difference:
    the block applies no rounding step to any of them. *)
Theorem savings_and_credit_line p :
  valid p ->
  exists r,
    calculations p = Ok r /\
    apg_savings r = fsub (apg_total_cost_orig r) (apg_total_cost_phased r) /\
    pg_savings r = fsub (pg_total_cost_orig r) (pg_total_cost_phased r) /\
    total_savings r = fsub (total_cost_orig r) (total_cost_phased r) /\
    credit_line_orig r = apg_value_orig r /\
    credit_line_phased r = fadd (apg_value_phased r) (pg_value_phased r) /\
    credit_line_savings r = fsub (credit_line_orig r) (credit_line_phased r).
Proof.
  intros Hv. destruct (calculations_valid_run p Hv) as [r [Hr Hrun]].
  exists r. split; [exact Hr|]. by_closed_form Hrun.
Qed.

(** C8. The block is a total function of its parameters on the declared
    ranges: it returns a result (no exception; the division by the number of
    phases has a divisor of at least 1), and runs on identical parameters
    return identical results. *)
Theorem calculations_total_deterministic p :
  valid p ->
  (exists r, calculations p = Ok r) /\
  num_phases p <> 0 /\
  (forall q, q = p -> calculations q = calculations p).
Proof.
  intros Hv. split; [exact (calculations_valid_Ok p Hv)|].
  split.
  - destruct (valid_valid_counts p Hv). lia.
  - intros q ->. reflexivity.
Qed.

End Generic.

(** ** Rounding in binary64

    The operations of primitive floats are specified on [spec_float] by
    rounding an exact mantissa and exponent ([binary_round_aux]).  The lemmas
    below follow the sign of the result through that rounding, and bound its
    exponent where an overflow must be excluded. *)

Lemma fexp64 z : fexp prec emax z = Z.max (z - 53) (-1074).
Proof. reflexivity. Qed.

Lemma digits2_pos_size p : digits2_pos p = Pos.size p.
Proof. induction p as [p IH|p IH|]; cbn; now rewrite ?IH. Qed.

Lemma Zdigits2_nonneg m : 0 <= Zdigits2 m.
Proof. destruct m; cbn; lia. Qed.

Lemma Zdigits2_bounds m :
  0 < m -> 2 ^ (Zdigits2 m - 1) <= m < 2 ^ Zdigits2 m.
Proof.
  destruct m as [|p|p]; try lia. intros _. cbn [Zdigits2].
  rewrite digits2_pos_size.
  pose proof (Pos.size_gt p) as Hgt. pose proof (Pos.size_le p) as Hle.
  apply Pos2Z.pos_lt_pos in Hgt. apply Pos2Z.pos_le_pos in Hle.
  rewrite Pos2Z.inj_pow in Hgt, Hle.
  replace (Z.pos (Pos.size p)) with (Z.succ (Z.pos (Pos.size p) - 1)) in Hle at 1 by lia.
  rewrite Z.pow_succ_r in Hle by lia.
  change (Z.pos p~0) with (2 * Z.pos p) in Hle. lia.
Qed.

Lemma Zdigits2_le m t : 0 <= t -> 0 <= m <= 2 ^ t -> Zdigits2 m <= t + 1.
Proof.
  intros Ht [Hm0 Hm].
  destruct (Z.eq_dec m 0) as [->|Hne]; [cbn; lia|].
  destruct (Zdigits2_bounds m) as [Hlo _]; [lia|].
  pose proof (Zdigits2_nonneg m).
  destruct (Z_le_gt_dec (Zdigits2 m) (t + 1)) as [|Hgt]; [assumption|].
  exfalso.
  assert (2 ^ (t + 1) <= 2 ^ (Zdigits2 m - 1)) by (apply Z.pow_le_mono_r; lia).
  rewrite Z.pow_add_r in * by lia. lia.
Qed.

Lemma Zdigits2_lt m t : 0 <= t -> 0 <= m < 2 ^ t -> Zdigits2 m <= t.
Proof.
  intros Ht [Hm0 Hm].
  destruct (Z.eq_dec m 0) as [->|Hne]; [cbn; lia|].
  destruct (Zdigits2_bounds m) as [Hlo _]; [lia|].
  destruct (Z_le_gt_dec (Zdigits2 m) t) as [|Hgt]; [assumption|].
  exfalso.
  assert (2 ^ t <= 2 ^ (Zdigits2 m - 1)) by (apply Z.pow_le_mono_r; lia).
  lia.
Qed.

Lemma shr_1_m mrs : 0 <= shr_m mrs -> shr_m (shr_1 mrs) = Z.div2 (shr_m mrs).
Proof.
  destruct mrs as [m r s]. cbn [shr_m]. intros Hm.
  destruct m as [|[p|p|]|p]; try lia; reflexivity.
Qed.

Lemma iter_pos_count {A : Type} (R : Z -> A -> Prop) (f : A -> A) :
  (forall j x, 0 <= j -> R j x -> R (j + 1) (f x)) ->
  forall n j x, 0 <= j -> R j x -> R (j + Z.pos n) (iter_pos f n x).
Proof.
  intros Hstep. induction n as [n IH|n IH|]; intros j x Hj Hx; cbn [iter_pos].
  - replace (j + Z.pos n~1) with (j + 1 + Z.pos n + Z.pos n) by lia.
    apply IH; [lia|]. apply IH; [lia|]. now apply Hstep.
  - replace (j + Z.pos n~0) with (j + Z.pos n + Z.pos n) by lia.
    apply IH; [lia|]. now apply IH.
  - now apply Hstep.
Qed.

(** A right shift keeps the mantissa nonnegative and below the shifted one. *)
Lemma shr_spec mrs e k :
  0 <= shr_m mrs ->
  0 <= shr_m (fst (shr mrs e k)) /\
  snd (shr mrs e k) = e + Z.max k 0 /\
  shr_m (fst (shr mrs e k)) * 2 ^ Z.max k 0 <= shr_m mrs.
Proof.
  intros Hm. destruct k as [|k|k]; cbn [shr fst snd].
  - rewrite Z.max_r by lia. cbn. lia.
  - rewrite Z.max_l by lia.
    assert (HR : (fun j x => 0 <= shr_m x /\ shr_m x * 2 ^ j <= shr_m mrs)
                   (0 + Z.pos k) (iter_pos shr_1 k mrs)).
    { apply iter_pos_count; [|lia|cbn; lia].
      intros j x Hj [Hx0 Hx]. rewrite shr_1_m by assumption.
      pose proof (Z.div2_odd (shr_m x)) as Hodd.
      assert (0 <= Z.div2 (shr_m x)) by now apply Z.div2_nonneg.
      split; [assumption|].
      rewrite Z.pow_add_r by lia. change (2 ^ 1) with 2.
      assert (0 < 2 ^ j) by (apply Z.pow_pos_nonneg; lia).
      destruct (Z.odd (shr_m x)); cbn [Z.b2z] in Hodd; nia. }
    cbn beta in HR. rewrite Z.add_0_l in HR. intuition lia.
  - rewrite Z.max_r by lia. cbn. lia.
Qed.

Lemma round_nearest_even_bounds m l :
  m <= round_nearest_even m l <= m + 1.
Proof.
  destruct l as [|[| |]]; cbn; try lia. destruct (Z.even m); lia.
Qed.

Lemma shr_record_of_loc_m m l : shr_m (shr_record_of_loc m l) = m.
Proof. destruct l as [|[| |]]; reflexivity. Qed.

(** Rounding a nonnegative mantissa gives zero, a positive float or plus
    infinity. *)
Lemma binary_round_aux_nonneg m e l :
  0 <= m -> nonneg_sf (binary_round_aux prec emax false m e l).
Proof.
  intros Hm. unfold binary_round_aux, shr_fexp.
  set (k1 := fexp prec emax (Zdigits2 m + e) - e).
  destruct (shr_spec (shr_record_of_loc m l) e k1) as (H1 & _ & _);
    [rewrite shr_record_of_loc_m; lia|].
  destruct (shr (shr_record_of_loc m l) e k1) as [mrs1 e1]. cbn [fst] in H1.
  set (mr := round_nearest_even (shr_m mrs1) (loc_of_shr_record mrs1)).
  pose proof (round_nearest_even_bounds (shr_m mrs1) (loc_of_shr_record mrs1)) as Hr.
  fold mr in Hr.
  set (k2 := fexp prec emax (Zdigits2 mr + e1) - e1).
  destruct (shr_spec (shr_record_of_loc mr loc_Exact) e1 k2) as (H2 & _ & _);
    [cbn; lia|].
  destruct (shr (shr_record_of_loc mr loc_Exact) e1 k2) as [mrs2 e2].
  cbn [fst] in H2.
  destruct (shr_m mrs2) as [|p|p]; [exact I | | lia].
  destruct (e2 <=? emax - prec); reflexivity.
Qed.

(** Rounding a mantissa below [2 ^ 1023] in value cannot overflow. *)
Lemma binary_round_aux_finite m e l :
  0 <= m -> m < 2 ^ (1023 - e) -> e <= 971 ->
  fin_nonneg (binary_round_aux prec emax false m e l).
Proof.
  intros Hm Hlt He. unfold binary_round_aux, shr_fexp.
  assert (Hd : Zdigits2 m + e <= 1023).
  { pose proof (Zdigits2_lt m (1023 - e)). lia. }
  set (k1 := fexp prec emax (Zdigits2 m + e) - e).
  assert (Hk1 : e + Z.max k1 0 <= 971).
  { subst k1. rewrite fexp64. lia. }
  destruct (shr_spec (shr_record_of_loc m l) e k1) as (H1 & He1 & Hb1);
    [rewrite shr_record_of_loc_m; lia|].
  rewrite shr_record_of_loc_m in Hb1.
  destruct (shr (shr_record_of_loc m l) e k1) as [mrs1 e1].
  cbn [fst snd] in H1, He1, Hb1.
  assert (Hm1 : shr_m mrs1 < 2 ^ (1023 - e1)).
  { destruct (Z_lt_ge_dec (shr_m mrs1) (2 ^ (1023 - e1))) as [|Hge]; [assumption|].
    exfalso.
    assert (2 ^ (1023 - e1) * 2 ^ Z.max k1 0 <= shr_m mrs1 * 2 ^ Z.max k1 0).
    { apply Z.mul_le_mono_nonneg_r; [apply Z.pow_nonneg|]; lia. }
    rewrite <- Z.pow_add_r in * by lia.
    replace (1023 - e1 + Z.max k1 0) with (1023 - e) in * by lia. lia. }
  set (mr := round_nearest_even (shr_m mrs1) (loc_of_shr_record mrs1)).
  pose proof (round_nearest_even_bounds (shr_m mrs1) (loc_of_shr_record mrs1)) as Hr.
  fold mr in Hr.
  assert (Hdr : Zdigits2 mr + e1 <= 1024).
  { pose proof (Zdigits2_le mr (1023 - e1)). lia. }
  set (k2 := fexp prec emax (Zdigits2 mr + e1) - e1).
  assert (Hk2 : e1 + Z.max k2 0 <= 971).
  { subst k2. rewrite fexp64. lia. }
  destruct (shr_spec (shr_record_of_loc mr loc_Exact) e1 k2) as (H2 & He2 & _);
    [cbn; lia|].
  destruct (shr (shr_record_of_loc mr loc_Exact) e1 k2) as [mrs2 e2].
  cbn [fst snd] in H2, He2.
  destruct (shr_m mrs2) as [|p|p]; [exact I | | lia].
  destruct (Z.leb_spec e2 (emax - prec)) as [|Hgt]; [reflexivity|].
  change (emax - prec) with 971 in Hgt. lia.
Qed.

Lemma SFmul_fin_nonneg x y :
  fin_nonneg x -> fin_nonneg y -> nonneg_sf (SFmul prec emax x y).
Proof.
  destruct x as [sx|sx| |sx mx ex], y as [sy|sy| |sy my ey];
    cbn [fin_nonneg SFmul]; try tauto; try (intros; exact I).
  intros -> ->. apply binary_round_aux_nonneg. lia.
Qed.

Lemma SFmul_nonneg_pos x y :
  nonneg_sf x -> pos_fin y -> nonneg_sf (SFmul prec emax x y).
Proof.
  destruct x as [sx|sx| |sx mx ex], y as [sy|sy| |sy my ey];
    cbn [nonneg_sf pos_fin SFmul]; try tauto; try (intros; exact I).
  - intros -> ->. reflexivity.
  - intros -> ->. apply binary_round_aux_nonneg. lia.
Qed.

Lemma SFadd_nonneg x y :
  nonneg_sf x -> nonneg_sf y -> nonneg_sf (SFadd prec emax x y).
Proof.
  destruct x as [sx|sx| |sx mx ex], y as [sy|sy| |sy my ey];
    cbn [nonneg_sf SFadd]; try tauto.
  - intros _ _. destruct sx, sy; exact I.
  - intros -> ->. exact eq_refl.
  - intros -> ->. cbn [cond_Zopp]. cbn [Z.add binary_normalize].
    unfold binary_round.
    destruct (shl_align _ _ _) as [mz ez].
    apply binary_round_aux_nonneg. lia.
Qed.

Lemma valid_binary_bounds s m e :
  valid_binary (S754_finite s m e) = true ->
  fexp prec emax (Zdigits2 (Z.pos m) + e) = e /\ e <= 971.
Proof.
  cbn [SpecFloat.valid_binary]. unfold bounded, canonical_mantissa.
  rewrite andb_true_iff, Z.eqb_eq, Z.leb_le. cbn [Zdigits2].
  change (emax - prec) with 971. tauto.
Qed.

Lemma div_eucl_bounds a b :
  0 <= a -> 0 < b ->
  0 <= fst (Z.div_eucl a b) /\ fst (Z.div_eucl a b) * b <= a.
Proof.
  intros Ha Hb. pose proof (Z_div_mod a b) as H.
  destruct (Z.div_eucl a b) as [q r]. cbn [fst].
  destruct H as [Heq Hr]; [lia|]. nia.
Qed.

(** Dividing a positive float by a float of at least 2 (a full mantissa and
    an exponent of at least -51) cannot overflow. *)
Lemma SFdiv_finite mx ex my ey :
  valid_binary (S754_finite false mx ex) = true ->
  2 ^ 52 <= Z.pos my -> Zdigits2 (Z.pos my) = 53 -> -51 <= ey ->
  fin_nonneg (SFdiv prec emax (S754_finite false mx ex) (S754_finite false my ey)).
Proof.
  intros Hx Hmy Hdy Hey. destruct (valid_binary_bounds _ _ _ Hx) as [Hcan Hex].
  rewrite fexp64 in Hcan.
  cbn [SFdiv xorb]. unfold SFdiv_core_binary. rewrite Hdy.
  set (d1 := Zdigits2 (Z.pos mx)) in *.
  set (e' := Z.min (fexp prec emax (d1 + ex - (53 + ey))) (ex - ey)).
  assert (He' : e' <= 971) by (subst e'; rewrite fexp64; lia).
  set (s := ex - ey - e').
  assert (Hs : 0 <= s) by (subst s e'; lia).
  set (m' := match s with Z.pos _ => Z.shiftl (Z.pos mx) s | 0 => Z.pos mx | Z.neg _ => 0 end).
  assert (Hm' : m' = Z.pos mx * 2 ^ s).
  { subst m'. clearbody s. destruct s as [|ps|ps]; try lia.
    rewrite Z.shiftl_mul_pow2 by lia. reflexivity. }
  assert (Hpow : 0 < 2 ^ s) by (apply Z.pow_pos_nonneg; lia).
  assert (Hm'0 : 0 <= m').
  { rewrite Hm'. apply Z.mul_nonneg_nonneg; lia. }
  destruct (div_eucl_bounds m' (Z.pos my)) as [Hq0 Hq]; [assumption | lia |].
  destruct (Z.div_eucl m' (Z.pos my)) as [q r]. cbn [fst] in Hq0, Hq.
  apply binary_round_aux_finite; [assumption | | assumption].
  destruct (Zdigits2_bounds (Z.pos mx)) as [_ Hmx]; [lia|]. fold d1 in Hmx.
  assert (Hd1 : 0 <= d1) by apply Zdigits2_nonneg.
  destruct (Z_lt_ge_dec q (2 ^ (1023 - e'))) as [|Hge]; [assumption|]. exfalso.
  assert (H1 : 2 ^ (1023 - e') * 2 ^ 52 <= q * Z.pos my) by nia.
  assert (H2 : Z.pos mx * 2 ^ s < 2 ^ d1 * 2 ^ s) by nia.
  rewrite <- Z.pow_add_r in H1, H2 by lia.
  assert (H3 : 2 ^ (d1 + s) <= 2 ^ (1023 - e' + 52)).
  { apply Z.pow_le_mono_r; [lia|]. subst s. lia. }
  lia.
Qed.

Lemma Zdigits2_unique m d :
  0 < d -> 2 ^ (d - 1) <= m < 2 ^ d -> Zdigits2 m = d.
Proof.
  intros Hd [Hlo Hhi].
  assert (Hm : 0 < m).
  { assert (0 < 2 ^ (d - 1)) by (apply Z.pow_pos_nonneg; lia). lia. }
  destruct (Zdigits2_bounds m Hm) as [Hlo' Hhi'].
  pose proof (Zdigits2_nonneg m) as Hn.
  destruct (Z.lt_trichotomy (Zdigits2 m) d) as [Hlt|[Heq|Hgt]]; [|assumption|].
  - assert (2 ^ Zdigits2 m <= 2 ^ (d - 1)) by (apply Z.pow_le_mono_r; lia). lia.
  - assert (2 ^ d <= 2 ^ (Zdigits2 m - 1)) by (apply Z.pow_le_mono_r; lia). lia.
Qed.

Lemma Zdigits2_mul_pow2 m j :
  0 < m -> 0 <= j -> Zdigits2 (m * 2 ^ j) = Zdigits2 m + j.
Proof.
  intros Hm Hj. destruct (Zdigits2_bounds m Hm) as [Hlo Hhi].
  assert (Hd : 0 < Zdigits2 m).
  { destruct m; cbn; lia. }
  assert (Hp : 0 < 2 ^ j) by (apply Z.pow_pos_nonneg; lia).
  apply Zdigits2_unique; [lia|].
  replace (Zdigits2 m + j - 1) with (Zdigits2 m - 1 + j) by lia.
  rewrite !Z.pow_add_r by lia. nia.
Qed.

Lemma shr_1_double v :
  0 < v ->
  shr_1 {| shr_m := 2 * v; shr_r := false; shr_s := false |}
  = {| shr_m := v; shr_r := false; shr_s := false |}.
Proof. destruct v as [|p|p]; try lia. reflexivity. Qed.

(** Shifting out [j] zero bits is exact. *)
Lemma shr_exact m j e :
  0 < m -> 0 <= j ->
  shr {| shr_m := m * 2 ^ j; shr_r := false; shr_s := false |} e j
  = ({| shr_m := m; shr_r := false; shr_s := false |}, e + j).
Proof.
  intros Hm Hj. destruct j as [|p|p]; try lia; cbn [shr].
  - rewrite Z.pow_0_r, Z.mul_1_r, Z.add_0_r. reflexivity.
  - f_equal.
    set (j := Z.pos p) in *.
    assert (HR : (fun i x => i <= j ->
                    x = {| shr_m := m * 2 ^ (j - i); shr_r := false; shr_s := false |})
                   (0 + Z.pos p)
                   (iter_pos shr_1 p
                      {| shr_m := m * 2 ^ j; shr_r := false; shr_s := false |})).
    { apply iter_pos_count; [|lia|].
      - intros i x Hi Hx Hle. rewrite Hx by lia.
        replace (j - i) with (Z.succ (j - (i + 1))) by lia.
        rewrite Z.pow_succ_r by lia.
        replace (m * (2 * 2 ^ (j - (i + 1)))) with (2 * (m * 2 ^ (j - (i + 1)))) by lia.
        apply shr_1_double.
        assert (0 < 2 ^ (j - (i + 1))) by (apply Z.pow_pos_nonneg; lia). nia.
      - intros _. rewrite Z.sub_0_r. reflexivity. }
    cbn beta in HR. rewrite HR by (subst j; lia).
    replace (j - (0 + Z.pos p)) with 0 by (subst j; lia).
    rewrite Z.pow_0_r, Z.mul_1_r. reflexivity.
Qed.

(** Rounding a float written with [j] more zero bits gives the float back. *)
Lemma binary_round_aux_exact mx ex j :
  valid_binary (S754_finite false mx ex) = true -> 0 <= j ->
  binary_round_aux prec emax false (Z.pos mx * 2 ^ j) (ex - j) loc_Exact
  = S754_finite false mx ex.
Proof.
  intros Hx Hj. destruct (valid_binary_bounds _ _ _ Hx) as [Hcan Hex].
  unfold binary_round_aux, shr_fexp.
  rewrite Zdigits2_mul_pow2 by lia.
  replace (Zdigits2 (Z.pos mx) + j + (ex - j)) with (Zdigits2 (Z.pos mx) + ex) by lia.
  rewrite Hcan. replace (ex - (ex - j)) with j by lia.
  cbn [shr_record_of_loc]. rewrite shr_exact by lia.
  replace (ex - j + j) with ex by lia.
  cbn [shr_m loc_of_shr_record round_nearest_even].
  rewrite Hcan, Z.sub_diag. cbn [shr_record_of_loc shr shr_m].
  destruct (Z.leb_spec ex (emax - prec)) as [|Hgt]; [reflexivity|].
  change (emax - prec) with 971 in Hgt. lia.
Qed.

Lemma SFdiv_one mx ex :
  valid_binary (S754_finite false mx ex) = true ->
  SFdiv prec emax (S754_finite false mx ex) SF_one = S754_finite false mx ex.
Proof.
  intros Hx. destruct (valid_binary_bounds _ _ _ Hx) as [Hcan Hex].
  rewrite fexp64 in Hcan.
  unfold SF_one. cbn [SFdiv xorb]. unfold SFdiv_core_binary.
  change (Zdigits2 4503599627370496) with 53.
  set (d1 := Zdigits2 (Z.pos mx)) in *.
  assert (He' : Z.min (fexp prec emax (d1 + ex - (53 + -52))) (ex - -52)
                = fexp prec emax (d1 + ex - 1)).
  { rewrite !fexp64. replace (d1 + ex - (53 + -52)) with (d1 + ex - 1) by lia. lia. }
  rewrite He'. set (e' := fexp prec emax (d1 + ex - 1)).
  assert (He'x : e' <= ex) by (subst e'; rewrite fexp64; lia).
  set (j := ex - e').
  replace (ex - -52 - e') with (j + 52) by (subst j; lia).
  assert (Hj : 0 <= j) by (subst j; lia).
  destruct (j + 52) as [|ps|ps] eqn:Es; try lia.
  rewrite Z.shiftl_mul_pow2 by lia. rewrite <- Es.
  rewrite Z.pow_add_r by lia. rewrite Z.mul_assoc.
  assert (Hde : Z.div_eucl (Z.pos mx * 2 ^ j * 2 ^ 52) 4503599627370496
                = (Z.pos mx * 2 ^ j, 0)).
  { change 4503599627370496 with (2 ^ 52).
    pose proof (Z_div_mod (Z.pos mx * 2 ^ j * 2 ^ 52) (2 ^ 52)) as H.
    destruct (Z.div_eucl (Z.pos mx * 2 ^ j * 2 ^ 52) (2 ^ 52)) as [q r].
    destruct H as [Heq Hr]; [reflexivity|].
    assert (r = 0 /\ q = Z.pos mx * 2 ^ j) as [-> ->]; [|reflexivity].
    set (a := Z.pos mx * 2 ^ j) in *. change (2 ^ 52) with 4503599627370496 in *. lia. }
  rewrite Hde. change (new_location 4503599627370496 0) with loc_Exact.
  replace e' with (ex - j) by (subst j; lia).
  now apply binary_round_aux_exact.
Qed.

(** ** Signs of the figures in binary64 *)

Section Binary64Signs.

Local Open Scope float_scope.

Lemma is_pos_fin_spec x : is_pos_fin x = true -> pos_fin x.
Proof. destruct x as [| | |[|] m e]; cbn; congruence. Qed.

Lemma pos_fin_nonneg x : pos_fin x -> nonneg_sf x.
Proof. destruct x; cbn; tauto. Qed.

Lemma pos_fin_fin_nonneg x : pos_fin x -> fin_nonneg x.
Proof. destruct x; cbn; tauto. Qed.

Lemma fin_nonneg_nonneg x : fin_nonneg x -> nonneg_sf x.
Proof. destruct x; cbn; tauto. Qed.

Lemma Prim2SF_zero : Prim2SF 0 = S754_zero false.
Proof. reflexivity. Qed.

Lemma Prim2SF_one : Prim2SF 1 = SF_one.
Proof. reflexivity. Qed.

Lemma Prim2SF_infinity : Prim2SF infinity = S754_infinity false.
Proof. reflexivity. Qed.

(** What compares [>= 0] in the sign classes. *)
Lemma leb_zero_nonneg x : nonneg_sf (Prim2SF x) -> (0 <=? x) = true.
Proof.
  rewrite leb_spec, Prim2SF_zero.
  destruct (Prim2SF x) as [s|s| |s m e]; cbn; try tauto; intros ->; reflexivity.
Qed.

Lemma is_finite_not_infinity x s :
  is_finite x = true -> Prim2SF x <> S754_infinity s.
Proof.
  unfold is_finite, is_infinity. intros Hfin Hx.
  rewrite FloatAxioms.eqb_spec, abs_spec, Hx, Prim2SF_infinity in Hfin.
  cbn in Hfin. rewrite orb_true_r in Hfin. discriminate.
Qed.

(** A finite float above zero is a positive float. *)
Lemma pos_fin_of_positive x :
  (0 <? x) = true -> is_finite x = true -> pos_fin (Prim2SF x).
Proof.
  rewrite ltb_spec, Prim2SF_zero. intros Hlt Hfin.
  pose proof (is_finite_not_infinity x) as Hinf.
  destruct (Prim2SF x) as [s|s| |[|] m e]; cbn in Hlt |- *;
    try discriminate; try reflexivity.
  exfalso. exact (Hinf s Hfin eq_refl).
Qed.

(** A float between two positive floats is a positive float. *)
Lemma pos_fin_of_range lo hi x :
  is_pos_fin (Prim2SF lo) = true -> is_pos_fin (Prim2SF hi) = true ->
  (lo <=? x) = true -> (x <=? hi) = true -> pos_fin (Prim2SF x).
Proof.
  rewrite !leb_spec. intros Hlo Hhi.
  destruct (Prim2SF lo) as [| | |[|] ml el]; try discriminate.
  destruct (Prim2SF hi) as [| | |[|] mh eh]; try discriminate.
  destruct (Prim2SF x) as [s|[|]| |[|] m e]; cbn; try discriminate; reflexivity.
Qed.

(** A float between zero and a positive float is zero or a positive float. *)
Lemma fin_nonneg_of_range hi x :
  is_pos_fin (Prim2SF hi) = true ->
  (0 <=? x) = true -> (x <=? hi) = true -> fin_nonneg (Prim2SF x).
Proof.
  rewrite !leb_spec, Prim2SF_zero. intros Hhi.
  destruct (Prim2SF hi) as [| | |[|] mh eh]; try discriminate.
  destruct (Prim2SF x) as [s|[|]| |[|] m e]; cbn; try discriminate;
    intros; try exact I; reflexivity.
Qed.

Lemma fmul_fin_nonneg (x y : float) :
  fin_nonneg (Prim2SF x) -> fin_nonneg (Prim2SF y) -> nonneg_sf (Prim2SF (x * y)).
Proof. rewrite mul_spec. apply SFmul_fin_nonneg. Qed.

Lemma fmul_nonneg_pos (x y : float) :
  nonneg_sf (Prim2SF x) -> pos_fin (Prim2SF y) -> nonneg_sf (Prim2SF (x * y)).
Proof. rewrite mul_spec. apply SFmul_nonneg_pos. Qed.

Lemma fadd_nonneg (x y : float) :
  nonneg_sf (Prim2SF x) -> nonneg_sf (Prim2SF y) -> nonneg_sf (Prim2SF (x + y)).
Proof. rewrite add_spec. apply SFadd_nonneg. Qed.

(** On the declared month counts the quotient of the two integers is the
    float quotient of the converted integers, as for [float / int]. *)
Lemma float_int_truediv_months (a : Z) :
  (0 <= a <= 36)%Z ->
  exists x, float_of_int a = Ok x /\ float_int_truediv a 12 = Ok (x / 12).
Proof.
  intros Ha.
  pose proof (all_from_spec
                (fun k => match float_of_int k, float_int_truediv k 12 with
                          | Ok x, Ok d => PrimFloat.Leibniz.eqb d (x / 12)
                          | _, _ => false
                          end) 37 0) as Hall.
  cbv beta in Hall. specialize (Hall ltac:(vm_compute; reflexivity) a ltac:(lia)).
  destruct (float_of_int a) as [x|]; [|discriminate].
  destruct (float_int_truediv a 12) as [d|]; [|discriminate].
  apply FloatAxioms.Leibniz.eqb_spec in Hall. subst d. eauto.
Qed.

(** The durations of the declared month counts are positive floats. *)
Lemma duration_pos_fin (a : Z) (d : float) :
  (1 <= a <= 36)%Z -> float_int_truediv a 12 = Ok d -> pos_fin (Prim2SF d).
Proof.
  intros Ha Hd. apply is_pos_fin_spec.
  pose proof (all_from_spec
                (fun k => match float_int_truediv k 12 with
                          | Ok y => is_pos_fin (Prim2SF y)
                          | Raise _ => false
                          end) 36 1) as Hall.
  cbv beta in Hall. specialize (Hall ltac:(vm_compute; reflexivity) a ltac:(lia)).
  rewrite Hd in Hall. exact Hall.
Qed.

(** The declared phase counts convert to divisors. *)
Lemma phases_divisor (n : Z) (y : float) :
  (1 <= n <= 5)%Z -> float_of_int n = Ok y -> is_divisor (Prim2SF y) = true.
Proof.
  intros Hn Hy.
  pose proof (all_from_spec
                (fun k => match float_of_int k with
                          | Ok y => is_divisor (Prim2SF y)
                          | Raise _ => false
                          end) 5 1) as Hall.
  cbv beta in Hall. specialize (Hall ltac:(vm_compute; reflexivity) n ltac:(lia)).
  rewrite Hy in Hall. exact Hall.
Qed.

Lemma is_divisor_pos_fin y : is_divisor y = true -> pos_fin y.
Proof. destruct y as [| | |[|] m e]; cbn; congruence. Qed.

(** The contract value of one phase is zero or a positive float: the
    division by the number of phases does not overflow. *)
Lemma float_div_int_fin_nonneg (x : float) (n : Z) (pv : float) :
  pos_fin (Prim2SF x) -> (1 <= n <= 5)%Z ->
  float_div_int x n = Ok pv -> fin_nonneg (Prim2SF pv).
Proof.
  intros Hx Hn. unfold float_div_int.
  destruct (float_of_int n) as [y|e] eqn:Hy; cbn [bind]; [|discriminate].
  destruct (is_zero y); [discriminate|]. intros [= <-].
  pose proof (phases_divisor n y Hn Hy) as Hdiv.
  pose proof (Prim2SF_valid x) as Hvx.
  rewrite div_spec. unfold SF64div.
  destruct (Prim2SF x) as [| | |sx mx ex]; cbn in Hx; try contradiction.
  subst sx.
  destruct (Prim2SF y) as [| | |[|] my ey]; cbn [is_divisor] in Hdiv;
    try discriminate.
  apply orb_true_iff in Hdiv as [Hone|Hbig].
  - apply andb_true_iff in Hone as [Hm He].
    apply Z.eqb_eq in Hm, He. injection Hm as ->. subst ey.
    fold SF_one. rewrite SFdiv_one by assumption. reflexivity.
  - rewrite !andb_true_iff, !Z.leb_le, Z.eqb_eq in Hbig.
    destruct Hbig as [[Hm Hd] He].
    apply SFdiv_finite; try assumption.
Qed.

Lemma float_mul_int_nonneg (c : float) (n : Z) (t : float) :
  nonneg_sf (Prim2SF c) -> (1 <= n <= 5)%Z ->
  float_mul_int c n = Ok t -> nonneg_sf (Prim2SF t).
Proof.
  intros Hc Hn. unfold float_mul_int.
  destruct (float_of_int n) as [y|e] eqn:Hy; cbn [bind]; [|discriminate].
  intros [= <-]. apply fmul_nonneg_pos; [assumption|].
  apply is_divisor_pos_fin. exact (phases_divisor n y Hn Hy).
Qed.

Lemma valid_valid_floats (p : InputParameters float) : valid p -> valid_floats p.
Proof.
  unfold valid, validb, in_rangeF.
  cbn [fleb fltb freal ffinite PyNumber_float].
  change (float_of_Q 0) with 0. change (float_of_Q 1) with 1.
  rewrite !andb_true_iff. intros Hv. decompose [and] Hv.
  split.
  - now apply pos_fin_of_positive.
  - now apply (fin_nonneg_of_range 1).
  - now apply (fin_nonneg_of_range 1).
  - now apply (fin_nonneg_of_range 1).
  - now apply (pos_fin_of_range (float_of_Q (1 # 1000)) (float_of_Q (1 # 10))).
Qed.

(** C6. On parameters in the declared ranges, the total cost of the original
    structure and the total cost of the phased structure, as the script
    computes them in binary64, both compare [>= 0]. *)
Theorem total_costs_nonnegative (p : InputParameters float) :
  valid p ->
  exists r,
    calculations p = Ok r /\
    (0 <=? total_cost_orig r) = true /\
    (0 <=? total_cost_phased r) = true.
Proof.
  intros Hv. destruct (calculations_valid_run p Hv) as [r [Hr Hrun]].
  exists r. split; [exact Hr|].
  destruct (valid_valid_floats p Hv) as [Htcv Hadv Hpgo Hpgp Hrate].
  destruct (valid_valid_counts p Hv) as [Hco Hdo Hn Hcp Hdp].
  destruct Hrun as [Hpcv Hd1 Hd2 Hd3 Hd4 Ht1 Ht2 Hcf].
  cbn [fdiv_int fmul_int int_truediv PyNumber_float] in *.
  assert (Pd1 : pos_fin (Prim2SF (apg_duration_orig r)))
    by (eapply duration_pos_fin; [|exact Hd1]; lia).
  assert (Pd2 : pos_fin (Prim2SF (pg_duration_orig r)))
    by (eapply duration_pos_fin; [|exact Hd2]; lia).
  assert (Pd3 : pos_fin (Prim2SF (apg_duration_phased r)))
    by (eapply duration_pos_fin; [|exact Hd3]; lia).
  assert (Pd4 : pos_fin (Prim2SF (pg_duration_phased r)))
    by (eapply duration_pos_fin; [|exact Hd4]; lia).
  pose proof (float_div_int_fin_nonneg _ _ _ Htcv Hn Hpcv) as Ppcv.
  assert (Eorig : total_cost_orig r
            = total_contract_value p * advance_payment_percent_orig p
              * bank_fee_rate p * apg_duration_orig r
              + total_contract_value p * pg_percent_orig p
                * bank_fee_rate p * pg_duration_orig r)
    by (rewrite Hcf; reflexivity).
  assert (Eapg : apg_cost_per_phase r
            = phase_contract_value r * advance_payment_percent_orig p
              * bank_fee_rate p * apg_duration_phased r)
    by (rewrite Hcf; reflexivity).
  assert (Epg : pg_cost_per_phase r
            = phase_contract_value r * pg_percent_phased p
              * bank_fee_rate p * pg_duration_phased r)
    by (rewrite Hcf; reflexivity).
  assert (Ephased : total_cost_phased r
            = apg_total_cost_phased r + pg_total_cost_phased r)
    by (rewrite Hcf; reflexivity).
  split; apply leb_zero_nonneg.
  - rewrite Eorig.
    apply fadd_nonneg; do 2 (apply fmul_nonneg_pos; [|assumption]);
      apply fmul_fin_nonneg; try assumption; now apply pos_fin_fin_nonneg.
  - rewrite Ephased. rewrite Eapg in Ht1. rewrite Epg in Ht2.
    apply fadd_nonneg;
      [ eapply float_mul_int_nonneg; [|exact Hn|exact Ht1]
      | eapply float_mul_int_nonneg; [|exact Hn|exact Ht2] ];
      do 2 (apply fmul_nonneg_pos; [|assumption]);
      now apply fmul_fin_nonneg.
Qed.

End Binary64Signs.

(** ** Binary64: the program as CPython runs it *)

Section Binary64.

Local Open Scope float_scope.

(** The percentages of the scenario are the floats its decimal constants
    denote. *)
Lemma scenario_constants :
  percent 40 = float_of_Q (40 # 100) /\
  percent 30 = float_of_Q (30 # 100) /\
  percent 10 = float_of_Q (10 # 100) /\
  percent 1 = float_of_Q (1 # 100).
Proof. vm_compute. repeat split. Qed.

Lemma scenario_valid : valid scenario.
Proof. vm_compute. reflexivity. Qed.

(** C1. On the scenario of the specification the block returns the stated
    figures, in binary64 as the script computes them. *)
Theorem scenario_figures :
  exists r,
    calculations scenario = Ok r /\
    apg_value_orig r = 128000000 /\
    pg_value_orig r = 96000000 /\
    apg_duration_orig r = 1 /\
    pg_duration_orig r = 1.5 /\
    apg_total_cost_orig r = 1280000 /\
    pg_total_cost_orig r = 1440000 /\
    total_cost_orig r = 2720000 /\
    phase_contract_value r = 80000000 /\
    apg_value_phased r = 32000000 /\
    pg_value_phased r = 8000000 /\
    credit_line_phased r = 40000000 /\
    credit_line_orig r = 128000000.
Proof.
  destruct (calculations scenario) as [r|e] eqn:Hr;
    vm_compute in Hr; [|discriminate].
  exists r. split; [reflexivity|].
  injection Hr as <-. repeat split.
Qed.

(** C10. The credit-line saving can be negative on valid parameters: in the
    scenario with a single phase, the phased credit line (160,000,000) exceeds
    the original one (128,000,000), and the saving is -32,000,000. *)
Theorem credit_line_savings_can_be_negative :
  exists p : InputParameters float,
    valid p /\
    num_phases p = 1%Z /\
    (0 <? pg_percent_phased p) = true /\
    exists r,
      calculations p = Ok r /\
      (credit_line_orig r <? credit_line_phased r) = true /\
      (credit_line_savings r <? 0) = true /\
      credit_line_orig r = 128000000 /\
      credit_line_phased r = 160000000 /\
      credit_line_savings r = -32000000.
Proof.
  exists (with_num_phases scenario 1).
  split; [vm_compute; reflexivity|].
  split; [reflexivity|]. split; [vm_compute; reflexivity|].
  destruct (calculations (with_num_phases scenario 1)) as [r|e] eqn:Hr;
    vm_compute in Hr; [|discriminate].
  exists r. split; [reflexivity|].
  injection Hr as <-. repeat split.
Qed.

(** C7, in binary64. Doubling the contract value does not always double the
    figures: with the smallest positive float as contract value, the original
    advance-payment guarantee rounds to 0, and with twice that contract value
    it is the smallest positive float, which is not twice 0. *)
Lemma doubling_fails_on_underflow :
  let p := with_total_contract_value scenario tiny in
  valid p /\
  exists r r2,
    calculations p = Ok r /\
    calculations (with_total_contract_value p (2 * total_contract_value p))
      = Ok r2 /\
    apg_value_orig r = 0 /\
    apg_value_orig r2 = tiny /\
    apg_value_orig r2 <> 2 * apg_value_orig r /\
    (apg_value_orig r2 =? 2 * apg_value_orig r) = false /\
    ~ scaled_by eq 2 r r2.
Proof.
  cbv zeta. split; [vm_compute; reflexivity|].
  destruct (calculations (with_total_contract_value scenario tiny))
    as [r|e] eqn:Hr; vm_compute in Hr; [|discriminate].
  match goal with
  | |- context [calculations ?q = Ok _ /\ _] =>
      destruct (calculations q) as [r2|e] eqn:Hr2;
      vm_compute in Hr2; [|discriminate]
  end.
  exists r, r2. injection Hr as <-. injection Hr2 as <-.
  repeat split; try (vm_compute; discriminate).
  intros [Hapg]. vm_compute in Hapg. discriminate.
Qed.


End Binary64.

(** ** The theorems at the scenario *)

Lemma original_structure_closed_form_scenario :
  let p := scenario in
  valid p /\
  exists r,
    calculations p = Ok r /\
    apg_value_orig r
      = fmul (total_contract_value p) (advance_payment_percent_orig p) /\
    pg_value_orig r = fmul (total_contract_value p) (pg_percent_orig p) /\
    int_truediv (construction_duration_orig p) 12 = Ok (apg_duration_orig r) /\
    int_truediv (construction_duration_orig p + dlp_duration_orig p) 12
      = Ok (pg_duration_orig r) /\
    apg_annual_cost_orig r = fmul (apg_value_orig r) (bank_fee_rate p) /\
    apg_total_cost_orig r
      = fmul (fmul (apg_value_orig r) (bank_fee_rate p)) (apg_duration_orig r) /\
    pg_annual_cost_orig r = fmul (pg_value_orig r) (bank_fee_rate p) /\
    pg_total_cost_orig r
      = fmul (fmul (pg_value_orig r) (bank_fee_rate p)) (pg_duration_orig r) /\
    total_cost_orig r = fadd (apg_total_cost_orig r) (pg_total_cost_orig r).
Proof.
  cbv zeta. split; [vm_compute; reflexivity|].
  apply (original_structure_closed_form scenario). vm_compute; reflexivity.
Defined.

Lemma apg_value_phased_reuses_orig_percent_scenario :
  let p := scenario in
  valid p /\
  exists r,
    calculations p = Ok r /\
    fdiv_int (total_contract_value p) (num_phases p)
      = Ok (phase_contract_value r) /\
    apg_value_phased r
      = fmul (phase_contract_value r) (advance_payment_percent_orig p) /\
    forall q r',
      calculations q = Ok r' ->
      total_contract_value q = total_contract_value p ->
      num_phases q = num_phases p ->
      advance_payment_percent_orig q = advance_payment_percent_orig p ->
      apg_value_phased r' = apg_value_phased r.
Proof.
  cbv zeta. split; [vm_compute; reflexivity|].
  apply (apg_value_phased_reuses_orig_percent scenario). vm_compute; reflexivity.
Defined.

Lemma phased_structure_costs_scenario :
  let p := scenario in
  valid p /\
  exists r,
    calculations p = Ok r /\
    int_truediv (construction_duration_phased p) 12
      = Ok (apg_duration_phased r) /\
    int_truediv (construction_duration_phased p + dlp_duration_phased p) 12
      = Ok (pg_duration_phased r) /\
    apg_annual_cost_phased r = fmul (apg_value_phased r) (bank_fee_rate p) /\
    apg_cost_per_phase r
      = fmul (fmul (apg_value_phased r) (bank_fee_rate p))
          (apg_duration_phased r) /\
    pg_annual_cost_phased r = fmul (pg_value_phased r) (bank_fee_rate p) /\
    pg_cost_per_phase r
      = fmul (fmul (pg_value_phased r) (bank_fee_rate p))
          (pg_duration_phased r) /\
    (apg_annual_cost_phased r, apg_cost_per_phase r)
      = calc_costs (apg_value_phased r) (bank_fee_rate p) (apg_duration_phased r) /\
    (pg_annual_cost_phased r, pg_cost_per_phase r)
      = calc_costs (pg_value_phased r) (bank_fee_rate p) (pg_duration_phased r) /\
    (apg_annual_cost_orig r, apg_total_cost_orig r)
      = calc_costs (apg_value_orig r) (bank_fee_rate p) (apg_duration_orig r) /\
    (pg_annual_cost_orig r, pg_total_cost_orig r)
      = calc_costs (pg_value_orig r) (bank_fee_rate p) (pg_duration_orig r) /\
    fmul_int (apg_cost_per_phase r) (num_phases p)
      = Ok (apg_total_cost_phased r) /\
    fmul_int (pg_cost_per_phase r) (num_phases p)
      = Ok (pg_total_cost_phased r) /\
    total_cost_phased r
      = fadd (apg_total_cost_phased r) (pg_total_cost_phased r).
Proof.
  cbv zeta. split; [vm_compute; reflexivity|].
  apply (phased_structure_costs scenario). vm_compute; reflexivity.
Defined.

Lemma savings_and_credit_line_scenario :
  let p := scenario in
  valid p /\
  exists r,
    calculations p = Ok r /\
    apg_savings r = fsub (apg_total_cost_orig r) (apg_total_cost_phased r) /\
    pg_savings r = fsub (pg_total_cost_orig r) (pg_total_cost_phased r) /\
    total_savings r = fsub (total_cost_orig r) (total_cost_phased r) /\
    credit_line_orig r = apg_value_orig r /\
    credit_line_phased r = fadd (apg_value_phased r) (pg_value_phased r) /\
    credit_line_savings r = fsub (credit_line_orig r) (credit_line_phased r).
Proof.
  cbv zeta. split; [vm_compute; reflexivity|].
  apply (savings_and_credit_line scenario). vm_compute; reflexivity.
Defined.

Lemma calculations_total_deterministic_scenario :
  let p := scenario in
  valid p /\
  (exists r, calculations p = Ok r) /\
  num_phases p <> 0 /\
  (forall q, q = p -> calculations q = calculations p).
Proof.
  cbv zeta. split; [vm_compute; reflexivity|].
  apply (calculations_total_deterministic scenario). vm_compute; reflexivity.
Defined.

Lemma total_costs_nonnegative_scenario :
  let p := scenario in
  valid p /\
  exists r,
    calculations p = Ok r /\
    (0 <=? total_cost_orig r)%float = true /\
    (0 <=? total_cost_phased r)%float = true.
Proof.
  cbv zeta. split; [vm_compute; reflexivity|].
  apply (total_costs_nonnegative scenario). vm_compute; reflexivity.
Defined.

(** ** The formatting of numbers *)

Lemma round_half_even_spec a d :
  0 <= a -> 0 < d ->
  0 <= round_half_even a d /\ 2 * Z.abs (round_half_even a d * d - a) <= d.
Proof.
  intros Ha Hd. unfold round_half_even.
  pose proof (Z.div_mod a d ltac:(lia)) as Hdm.
  pose proof (Z.mod_pos_bound a d Hd) as Hr.
  assert (Hq : 0 <= a / d) by (apply Z.div_pos; lia).
  destruct (Z.compare_spec (2 * (a mod d)) d) as [He|Hl|Hg];
    [destruct (Z.even (a / d))| |]; split; nia.
Qed.

Lemma scaled_round_nonneg prec m e : 0 <= scaled_round prec m e.
Proof.
  unfold scaled_round.
  assert (0 < 10 ^ Z.of_nat prec) by (apply Z.pow_pos_nonneg; lia).
  destruct (Z.leb_spec 0 e).
  - assert (0 < 2 ^ e) by (apply Z.pow_pos_nonneg; lia). nia.
  - apply round_half_even_spec; [nia|]. apply Z.pow_pos_nonneg; lia.
Qed.

(** The printed number is within half a unit of the last printed place. *)
Lemma scaled_round_accurate prec s m e :
  (Qabs (inject_Z (scaled_round prec m e)
         - inject_Z (10 ^ Z.of_nat prec) * SF_abs_value (S754_finite s m e))
   <= 1 # 2)%Q.
Proof.
  unfold scaled_round, SF_abs_value.
  assert (H10 : 0 < 10 ^ Z.of_nat prec) by (apply Z.pow_pos_nonneg; lia).
  destruct (Z.leb_spec 0 e) as [He|He].
  - apply Qabs_Qle_condition. unfold Qle, Qminus, Qplus, Qopp, Qmult, inject_Z.
    cbn [Qnum Qden]. split; nia.
  - set (d := 2 ^ (- e)).
    assert (Hd : 0 < d) by (apply Z.pow_pos_nonneg; lia).
    destruct (round_half_even_spec (10 ^ Z.of_nat prec * Z.pos m) d) as [Hn Hacc];
      [nia | assumption |].
    set (n := round_half_even (10 ^ Z.of_nat prec * Z.pos m) d) in *.
    apply Qabs_Qle_condition. unfold Qle, Qminus, Qplus, Qopp, Qmult, inject_Z.
    cbn [Qnum Qden]. rewrite !Pos2Z.inj_mul, Z2Pos.id by assumption.
    split; nia.
Qed.

Lemma is_digit_keep c : is_digit c = true -> keep c = true.
Proof.
  destruct c as [[|] [|] [|] [|] [|] [|] [|] [|]]; cbn; congruence.
Qed.

Lemma is_digit_not_minus c : is_digit c = true -> Ascii.eqb c "-"%char = false.
Proof.
  destruct c as [[|] [|] [|] [|] [|] [|] [|] [|]]; cbn; congruence.
Qed.

Lemma string_of_uint_digits d :
  Forall (fun c => is_digit c = true)
    (list_ascii_of_string (NilEmpty.string_of_uint d)).
Proof.
  induction d; cbn; constructor; auto.
Qed.

Lemma digits_of_digits n : Forall (fun c => is_digit c = true) (digits_of n).
Proof.
  unfold digits_of, NilZero.string_of_uint.
  destruct (N.to_uint (Z.to_N n)) eqn:E;
    try (rewrite <- E; apply string_of_uint_digits).
  cbn. repeat constructor.
Qed.

Lemma to_uint_not_Nil n : N.to_uint n <> Decimal.Nil.
Proof.
  intros H. pose proof (DecimalN.Unsigned.of_to n) as Hn.
  rewrite H in Hn. cbn in Hn. subst n. discriminate H.
Qed.

Lemma digits_of_nonempty n : digits_of n <> [].
Proof.
  unfold digits_of, NilZero.string_of_uint.
  destruct (N.to_uint (Z.to_N n)); cbn; discriminate.
Qed.

Lemma read_digits_zero l n :
  l <> [] -> read_digits l = Some n -> read_digits ("0"%char :: l) = Some n.
Proof.
  unfold read_digits, NilZero.uint_of_string. intros Hl.
  destruct l as [|c l]; [contradiction|]. cbn [string_of_list_ascii].
  change (NilEmpty.uint_of_string
            (String "0" (String c (string_of_list_ascii l))))
    with (uint_of_char "0"
            (NilEmpty.uint_of_string (String c (string_of_list_ascii l)))).
  destruct (NilEmpty.uint_of_string (String c (string_of_list_ascii l)))
    as [d|]; [|discriminate].
  cbn. intros H. exact H.
Qed.

Lemma read_digits_padded k n :
  read_digits (repeat "0"%char k ++ digits_of n) = Some (Z.to_N n).
Proof.
  induction k as [|k IH]; cbn [repeat app].
  - unfold read_digits, digits_of.
    rewrite string_of_list_ascii_of_string, NilZero.usu by apply to_uint_not_Nil.
    cbn. now rewrite DecimalN.Unsigned.of_to.
  - apply read_digits_zero; [|exact IH].
    destruct (repeat "0"%char k); cbn; [apply digits_of_nonempty | discriminate].
Qed.

(** Grouping only inserts commas. *)
Lemma filter_group_from_right l : forall room,
  Forall (fun c => is_digit c = true) l ->
  filter keep (group_from_right l room) = l.
Proof.
  induction l as [|c l IH]; intros room Hl; [reflexivity|].
  inversion Hl as [|? ? Hc Hl']; subst.
  destruct room as [|k]; cbn; rewrite (is_digit_keep c Hc), IH; auto.
Qed.

Lemma filter_group3 ds :
  Forall (fun c => is_digit c = true) ds -> filter keep (group3 ds) = ds.
Proof.
  intros Hds. unfold group3.
  rewrite <- (rev_involutive ds) at 2.
  rewrite filter_rev. f_equal.
  apply filter_group_from_right. apply Forall_rev. exact Hds.
Qed.

Lemma filter_digits ds :
  Forall (fun c => is_digit c = true) ds -> filter keep ds = ds.
Proof.
  induction 1 as [|c l Hc Hl IH]; cbn; [reflexivity|].
  now rewrite (is_digit_keep c Hc), IH.
Qed.

Lemma group_from_right_Forall (P : ascii -> Prop) l : forall room,
  P ","%char -> Forall P l -> Forall P (group_from_right l room).
Proof.
  induction l as [|c l IH]; intros room Hc Hl; [constructor|].
  inversion Hl; subst. destruct room; cbn; repeat constructor; auto.
Qed.

Lemma group3_Forall (P : ascii -> Prop) ds :
  P ","%char -> Forall P ds -> Forall P (group3 ds).
Proof.
  intros Hc Hds. unfold group3. apply Forall_rev.
  apply group_from_right_Forall; [assumption|]. now apply Forall_rev.
Qed.

Lemma padded_digits k n :
  Forall (fun c => is_digit c = true) (repeat "0"%char k ++ digits_of n).
Proof.
  apply Forall_app. split; [|apply digits_of_digits].
  induction k; cbn; constructor; auto.
Qed.

Lemma Forall_firstn {A} (P : A -> Prop) k l : Forall P l -> Forall P (firstn k l).
Proof.
  intros H. rewrite <- (firstn_skipn k l) in H.
  now apply Forall_app in H.
Qed.

Lemma Forall_skipn {A} (P : A -> Prop) k l : Forall P l -> Forall P (skipn k l).
Proof.
  intros H. rewrite <- (firstn_skipn k l) in H.
  now apply Forall_app in H.
Qed.

(** The text of a number, separators removed, is its digits. *)
Lemma filter_fixed_text grouping prec n :
  filter keep (fixed_text grouping prec n)
  = repeat "0"%char (prec + 1 - length (digits_of n)) ++ digits_of n.
Proof.
  unfold fixed_text.
  set (ds := repeat "0"%char (prec + 1 - length (digits_of n)) ++ digits_of n).
  assert (Hds : Forall (fun c => is_digit c = true) ds) by apply padded_digits.
  rewrite filter_app.
  assert (Hint : filter keep
                   (if grouping then group3 (firstn (length ds - prec) ds)
                    else firstn (length ds - prec) ds)
                 = firstn (length ds - prec) ds).
  { destruct grouping; [apply filter_group3 | apply filter_digits];
      now apply Forall_firstn. }
  rewrite Hint.
  assert (Hfrac : filter keep
                    match prec with
                    | O => []
                    | S _ => "."%char :: skipn (length ds - prec) ds
                    end
                  = skipn (length ds - prec) ds).
  { destruct prec as [|p].
    - rewrite Nat.sub_0_r, skipn_all. reflexivity.
    - cbn [filter]. change (keep ".") with false. cbv iota.
      apply filter_digits. now apply Forall_skipn. }
  rewrite Hfrac. apply firstn_skipn.
Qed.

Lemma fixed_text_not_minus grouping prec n :
  Forall not_minus (fixed_text grouping prec n).
Proof.
  unfold fixed_text.
  set (ds := repeat "0"%char (prec + 1 - length (digits_of n)) ++ digits_of n).
  assert (Hds : Forall not_minus ds).
  { eapply Forall_impl; [|apply padded_digits]. apply is_digit_not_minus. }
  apply Forall_app. split.
  - destruct grouping; [apply group3_Forall; [reflexivity|]|];
      now apply Forall_firstn.
  - destruct prec; constructor; [reflexivity|]. now apply Forall_skipn.
Qed.

Lemma read_fixed_text s grouping prec n :
  read_fixed (string_of_list_ascii (sign_text s ++ fixed_text grouping prec n))
  = Some (s, Z.to_N n).
Proof.
  unfold read_fixed. rewrite list_ascii_of_string_of_list_ascii.
  pose proof (fixed_text_not_minus grouping prec n) as Hnm.
  pose proof (filter_fixed_text grouping prec n) as Hf.
  pose proof (read_digits_padded (prec + 1 - length (digits_of n)) n) as Hr.
  unfold read_digits in Hr.
  destruct (NilZero.uint_of_string
              (string_of_list_ascii
                 (repeat "0"%char (prec + 1 - length (digits_of n))
                  ++ digits_of n))) as [d|] eqn:Hd; [|discriminate].
  cbn in Hr. injection Hr as Hr.
  destruct s; cbn [sign_text app].
  - change (Ascii.eqb "-" "-") with true. cbv iota.
    rewrite Hf, Hd. cbn. now rewrite Hr.
  - destruct (fixed_text grouping prec n) as [|c l] eqn:E.
    + cbn in Hf. symmetry in Hf. apply app_eq_nil in Hf as [_ Hf].
      now apply digits_of_nonempty in Hf.
    + inversion Hnm as [|? ? Hc _]; subst. unfold not_minus in Hc.
      rewrite Hc, Hf, Hd. cbn. now rewrite Hr.
Qed.

(** Reading a formatted finite float back gives its sign and its value
    rounded at the last printed place. *)
Lemma format_f_reads_back grouping prec (x : float) :
  SF_is_finite (Prim2SF x) = true ->
  read_fixed (format_f grouping prec x)
  = Some (SF_sign (Prim2SF x), Z.to_N (SF_scaled prec (Prim2SF x))).
Proof.
  unfold format_f.
  destruct (Prim2SF x) as [s|s| |s m e]; cbn [SF_is_finite SF_sign SF_scaled];
    try discriminate; intros _; apply read_fixed_text.
Qed.

Lemma is_digit_not_comma c : is_digit c = true -> c <> ","%char.
Proof. intros H ->. discriminate H. Qed.

(** Where the commas stand, counting from the right. *)
Lemma group_from_right_positions l : forall room i,
  (room <= 3)%nat ->
  Forall (fun c => is_digit c = true) l ->
  (i < length (group_from_right l room))%nat ->
  (nth i (group_from_right l room) "0"%char = ","%char
   <-> (i + (3 - room)) mod 4 = 3)%nat.
Proof.
  induction l as [|c l IH]; intros room i Hroom Hl Hi; [cbn in Hi; lia|].
  inversion Hl as [|? ? Hc Hl']; subst.
  pose proof (is_digit_not_comma c Hc) as Hne.
  destruct room as [|k]; cbn [group_from_right] in *.
  - destruct i as [|[|i]]; cbn [nth length] in *.
    + split; [reflexivity | reflexivity].
    + split; [intros H; contradiction | cbn; discriminate].
    + rewrite (IH 2%nat i) by (auto; lia).
      replace (S (S i) + (3 - 0))%nat with (i + (3 - 2) + 1 * 4)%nat by lia.
      now rewrite Nat.Div0.mod_add.
  - destruct i as [|i]; cbn [nth length] in *.
    + split; [intros H; contradiction|].
      intros H. exfalso.
      rewrite Nat.mod_small in H by lia. lia.
    + rewrite (IH k i) by (auto; lia).
      replace (S i + (3 - S k))%nat with (i + (3 - k))%nat by lia. reflexivity.
Qed.

Lemma group_from_right_length l : forall room,
  (room <= 3)%nat ->
  length (group_from_right l room)
  = (length l + (length l - room + 2) / 3)%nat.
Proof.
  induction l as [|c l IH]; intros room Hroom; [reflexivity|].
  destruct room as [|k]; cbn [group_from_right length].
  - rewrite (IH 2%nat) by lia.
    pose proof (Nat.div_mod_eq (length l - 2 + 2) 3).
    pose proof (Nat.div_mod_eq (S (length l) - 0 + 2) 3).
    pose proof (Nat.mod_upper_bound (length l - 2 + 2) 3).
    pose proof (Nat.mod_upper_bound (S (length l) - 0 + 2) 3).
    lia.
  - rewrite (IH k) by lia.
    replace (S (length l) - S k)%nat with (length l - k)%nat by lia. lia.
Qed.

(** The comma-grouped text of a digit string: the digits in order, a comma
    after every third digit counted from the right, none in front. *)
Lemma group3_spec ds :
  Forall (fun c => is_digit c = true) ds ->
  filter keep (group3 ds) = ds /\
  length (group3 ds) = (length ds + (length ds - 1) / 3)%nat /\
  forall i, (i < length (group3 ds))%nat ->
    (nth i (rev (group3 ds)) "0"%char = ","%char <-> i mod 4 = 3)%nat.
Proof.
  intros Hds. split; [now apply filter_group3|].
  unfold group3. rewrite rev_involutive, length_rev.
  rewrite group_from_right_length, length_rev by lia.
  split.
  - pose proof (Nat.div_mod_eq (length ds - 3 + 2) 3).
    pose proof (Nat.div_mod_eq (length ds - 1) 3).
    pose proof (Nat.mod_upper_bound (length ds - 3 + 2) 3).
    pose proof (Nat.mod_upper_bound (length ds - 1) 3).
    lia.
  - intros i Hi.
    rewrite group_from_right_positions;
      [ now rewrite Nat.sub_diag, Nat.add_0_r
      | lia
      | now apply Forall_rev
      | now rewrite group_from_right_length, length_rev by lia ].
Qed.


(** ** Errors and edge cases of the block *)

Section EdgeCases.

Context {F : Type} `{PyNumberLaws F}.

Implicit Types (p : InputParameters F).

Lemma calculations_counts_Ok p :
  valid_counts p -> exists r, calculations p = Ok r.
Proof.
  intros [Hco Hdo Hn Hcp Hdp].
  unfold calculations, calc_costs.
  destruct (fdiv_int_phases (total_contract_value p) _ Hn) as [pcv ->].
  destruct (int_truediv_months (construction_duration_orig p))
    as [d1 ->]; [lia|].
  destruct (int_truediv_months
              (construction_duration_orig p + dlp_duration_orig p))
    as [d2 ->]; [lia|].
  destruct (int_truediv_months (construction_duration_phased p))
    as [d3 ->]; [lia|].
  destruct (int_truediv_months
              (construction_duration_phased p + dlp_duration_phased p))
    as [d4 ->]; [lia|].
  cbn [bind].
  match goal with
  | |- context [bind (fmul_int ?x ?n)] =>
      destruct (fmul_int_phases x _ Hn) as [t1 ->]; cbn [bind]
  end.
  match goal with
  | |- context [bind (fmul_int ?x ?n)] =>
      destruct (fmul_int_phases x _ Hn) as [t2 ->]; cbn [bind]
  end.
  eauto.
Qed.

(** X1. The amounts play no part in whether the block returns: with the five
    integer parameters in the ranges of their widgets it returns a run for
    any amounts, a contract value of zero (the lower bound of its widget) and
    values that are no numbers included. *)
Theorem calculations_returns_on_widget_counts p :
  valid_counts p -> exists r, calculations p = Ok r /\ run p r.
Proof.
  intros Hc. destruct (calculations_counts_Ok p Hc) as [r Hr].
  exists r. split; [exact Hr | exact (calculations_Ok_run p r Hr)].
Qed.

(** X2. The only exception of the block is the division of line 54: with the
    month counts in the ranges of their widgets and at most five phases, the
    block raises [ZeroDivisionError] exactly when the number of phases is
    zero, whatever the amounts are, and returns otherwise. *)
Theorem zero_division_iff_no_phases p :
  1 <= construction_duration_orig p <= 24 ->
  0 <= dlp_duration_orig p <= 12 ->
  1 <= construction_duration_phased p <= 6 ->
  0 <= dlp_duration_phased p <= 12 ->
  0 <= num_phases p <= 5 ->
  (calculations p = Raise ZeroDivisionError <-> num_phases p = 0) /\
  (num_phases p <> 0 -> exists r, calculations p = Ok r).
Proof.
  intros Hco Hdo Hcp Hdp Hn.
  assert (Hret : num_phases p <> 0 -> exists r, calculations p = Ok r).
  { intros Hn0. apply calculations_counts_Ok. split; lia. }
  split; [|exact Hret]. split.
  - intros Hraise.
    destruct (Z.eq_dec (num_phases p) 0) as [|Hn0]; [assumption|].
    destruct (Hret Hn0) as [r Hr]. congruence.
  - apply calculations_zero_phases.
Qed.

End EdgeCases.

(** ** A contract value of zero *)

Section ZeroContractValue.

Local Open Scope float_scope.

Lemma is_zero_of_sf (x : float) : is_zero_sf (Prim2SF x) -> is_zero x = true.
Proof.
  unfold is_zero. rewrite FloatAxioms.eqb_spec.
  change (Prim2SF zero) with (S754_zero false).
  destruct (Prim2SF x); cbn; tauto.
Qed.

Lemma fmul_zero_l (x y : float) :
  is_zero_sf (Prim2SF x) -> SF_is_finite (Prim2SF y) = true ->
  is_zero_sf (Prim2SF (x * y)).
Proof.
  rewrite mul_spec. unfold SF64mul.
  destruct (Prim2SF x), (Prim2SF y); cbn; try tauto; discriminate.
Qed.

Lemma fadd_zero (x y : float) :
  is_zero_sf (Prim2SF x) -> is_zero_sf (Prim2SF y) ->
  is_zero_sf (Prim2SF (x + y)).
Proof.
  rewrite add_spec. unfold SF64add.
  destruct (Prim2SF x) as [[|]| | |], (Prim2SF y) as [[|]| | |]; cbn; tauto.
Qed.

Lemma fsub_zero (x y : float) :
  is_zero_sf (Prim2SF x) -> is_zero_sf (Prim2SF y) ->
  is_zero_sf (Prim2SF (x - y)).
Proof.
  rewrite sub_spec. unfold SF64sub.
  destruct (Prim2SF x) as [[|]| | |], (Prim2SF y) as [[|]| | |]; cbn; tauto.
Qed.

Lemma pos_fin_finite x : pos_fin x -> SF_is_finite x = true.
Proof. destruct x; cbn; tauto. Qed.

Lemma fin_nonneg_finite x : fin_nonneg x -> SF_is_finite x = true.
Proof. destruct x; cbn; tauto. Qed.

Lemma float_div_int_zero (x : float) (n : Z) (y : float) :
  is_zero_sf (Prim2SF x) -> (1 <= n <= 5)%Z ->
  float_div_int x n = Ok y -> is_zero_sf (Prim2SF y).
Proof.
  intros Hx Hn. unfold float_div_int.
  destruct (float_of_int n) as [d|e] eqn:Hd; cbn [bind]; [|discriminate].
  destruct (is_zero d); [discriminate|]. intros [= <-].
  pose proof (is_divisor_pos_fin _ (phases_divisor n d Hn Hd)) as Hpos.
  rewrite div_spec. unfold SF64div.
  destruct (Prim2SF x), (Prim2SF d); cbn in *; tauto.
Qed.

Lemma float_mul_int_zero (x : float) (n : Z) (y : float) :
  is_zero_sf (Prim2SF x) -> (1 <= n <= 5)%Z ->
  float_mul_int x n = Ok y -> is_zero_sf (Prim2SF y).
Proof.
  intros Hx Hn. unfold float_mul_int.
  destruct (float_of_int n) as [d|e] eqn:Hd; cbn [bind]; [|discriminate].
  intros [= <-]. apply fmul_zero_l; [assumption|].
  apply pos_fin_finite, is_divisor_pos_fin. exact (phases_divisor n d Hn Hd).
Qed.

(** X3. With a contract value of zero and the other parameters in their
    ranges, every value, cost, saving and credit-line figure is zero. *)
Theorem zero_contract_value_zero_figures (p : InputParameters float) :
  valid p ->
  exists r,
    calculations (with_total_contract_value p 0) = Ok r /\
    amounts_all (fun x => is_zero x = true) r.
Proof.
  intros Hv.
  destruct (valid_valid_floats p Hv) as [_ Hadv Hpgo Hpgp Hrate].
  destruct (valid_valid_counts p Hv) as [Hco Hdo Hn Hcp Hdp].
  set (p0 := with_total_contract_value p 0).
  destruct (calculations_counts_Ok p0) as [r Hr]; [split; assumption|].
  pose proof (calculations_Ok_run p0 r Hr) as Hrun.
  exists r. split; [exact Hr|].
  destruct Hrun as [Hpcv Hd1 Hd2 Hd3 Hd4 Ht1 Ht2 Hcf].
  cbn [fdiv_int fmul_int int_truediv PyNumber_float] in *.
  cbn [p0 with_total_contract_value total_contract_value num_phases
       construction_duration_orig dlp_duration_orig
       construction_duration_phased dlp_duration_phased] in *.
  assert (Pd1 : SF_is_finite (Prim2SF (apg_duration_orig r)) = true)
    by (apply pos_fin_finite; eapply duration_pos_fin; [|exact Hd1]; lia).
  assert (Pd2 : SF_is_finite (Prim2SF (pg_duration_orig r)) = true)
    by (apply pos_fin_finite; eapply duration_pos_fin; [|exact Hd2]; lia).
  assert (Pd3 : SF_is_finite (Prim2SF (apg_duration_phased r)) = true)
    by (apply pos_fin_finite; eapply duration_pos_fin; [|exact Hd3]; lia).
  assert (Pd4 : SF_is_finite (Prim2SF (pg_duration_phased r)) = true)
    by (apply pos_fin_finite; eapply duration_pos_fin; [|exact Hd4]; lia).
  apply fin_nonneg_finite in Hadv, Hpgo, Hpgp. apply pos_fin_finite in Hrate.
  assert (Z0 : is_zero_sf (Prim2SF 0)) by exact I.
  assert (Zpcv : is_zero_sf (Prim2SF (phase_contract_value r)))
    by (exact (float_div_int_zero _ _ _ Z0 Hn Hpcv)).
  assert (Eapg : apg_cost_per_phase r
            = phase_contract_value r * advance_payment_percent_orig p
              * bank_fee_rate p * apg_duration_phased r)
    by (rewrite Hcf; reflexivity).
  assert (Epg : pg_cost_per_phase r
            = phase_contract_value r * pg_percent_phased p
              * bank_fee_rate p * pg_duration_phased r)
    by (rewrite Hcf; reflexivity).
  rewrite Eapg in Ht1. rewrite Epg in Ht2.
  assert (Zt1 : is_zero_sf (Prim2SF (apg_total_cost_phased r))).
  { eapply float_mul_int_zero; [|exact Hn|exact Ht1].
    repeat apply fmul_zero_l; assumption. }
  assert (Zt2 : is_zero_sf (Prim2SF (pg_total_cost_phased r))).
  { eapply float_mul_int_zero; [|exact Hn|exact Ht2].
    repeat apply fmul_zero_l; assumption. }
  rewrite Hcf.
  split; cbn; apply is_zero_of_sf;
    repeat first
      [ assumption
      | apply fadd_zero
      | apply fsub_zero
      | apply fmul_zero_l ].
Qed.

End ZeroContractValue.

(** ** A single phase *)

Lemma SFmul_one x :
  valid_binary x = true -> nonneg_sf x -> SFmul prec emax x SF_one = x.
Proof.
  intros Hv Hx. destruct x as [s|s| |s m e]; cbn in Hx; try contradiction.
  - cbn. now rewrite xorb_false_r.
  - subst s. reflexivity.
  - subst s. unfold SF_one. cbn [SFmul xorb].
    change (Z.pos (m * 4503599627370496)) with (Z.pos m * 2 ^ 52).
    change (e + -52) with (e - 52).
    apply binary_round_aux_exact; [assumption | lia].
Qed.

Lemma SFdiv_one_nonneg x :
  valid_binary x = true -> fin_nonneg x -> SFdiv prec emax x SF_one = x.
Proof.
  intros Hv Hx. destruct x as [s|s| |s m e]; cbn in Hx; try contradiction.
  - cbn. now rewrite xorb_false_r.
  - subst s. now apply SFdiv_one.
Qed.

Lemma float_of_int_one : float_of_int 1 = Ok 1%float.
Proof. vm_compute. reflexivity. Qed.

Section SinglePhase.
Local Open Scope float_scope.

Lemma Prim2SF_eq (x y : float) : Prim2SF x = Prim2SF y -> x = y.
Proof. intros E. rewrite <- (SF2Prim_Prim2SF x), <- (SF2Prim_Prim2SF y). now rewrite E. Qed.

Lemma fdiv_one (x : float) : fin_nonneg (Prim2SF x) -> x / 1 = x.
Proof.
  intros Hx. apply Prim2SF_eq. rewrite div_spec, Prim2SF_one.
  apply SFdiv_one_nonneg; [apply Prim2SF_valid | assumption].
Qed.

Lemma fmul_one (x : float) : nonneg_sf (Prim2SF x) -> x * 1 = x.
Proof.
  intros Hx. apply Prim2SF_eq. rewrite mul_spec, Prim2SF_one.
  apply SFmul_one; [apply Prim2SF_valid | assumption].
Qed.

(** X8. With a single phase the division and the multiplications by the number
    of phases change nothing, bit for bit: the contract value of the phase is
    the total contract value, the advance-payment guarantee of the phase is
    that of the original structure, and the two phased totals are the costs of
    the one phase. *)
Theorem single_phase_figures (p : InputParameters float) :
  valid p -> num_phases p = 1%Z ->
  exists r,
    calculations p = Ok r /\
    phase_contract_value r = total_contract_value p /\
    apg_value_phased r = apg_value_orig r /\
    apg_total_cost_phased r = apg_cost_per_phase r /\
    pg_total_cost_phased r = pg_cost_per_phase r.
Proof.
  intros Hv Hn1. destruct (calculations_valid_run p Hv) as [r [Hr Hrun]].
  exists r. split; [exact Hr|].
  destruct (valid_valid_floats p Hv) as [Htcv Hadv Hpgo Hpgp Hrate].
  destruct (valid_valid_counts p Hv) as [Hco Hdo Hn Hcp Hdp].
  destruct Hrun as [Hpcv Hd1 Hd2 Hd3 Hd4 Ht1 Ht2 Hcf].
  cbn [fdiv_int fmul_int int_truediv PyNumber_float] in *.
  assert (Pd3 : pos_fin (Prim2SF (apg_duration_phased r)))
    by (eapply duration_pos_fin; [|exact Hd3]; lia).
  assert (Pd4 : pos_fin (Prim2SF (pg_duration_phased r)))
    by (eapply duration_pos_fin; [|exact Hd4]; lia).
  pose proof (float_div_int_fin_nonneg _ _ _ Htcv Hn Hpcv) as Ppcv.
  rewrite Hn1 in Hpcv, Ht1, Ht2.
  unfold float_div_int in Hpcv. unfold float_mul_int in Ht1, Ht2.
  rewrite float_of_int_one in Hpcv, Ht1, Ht2. cbn [bind] in Hpcv, Ht1, Ht2.
  change (is_zero 1) with false in Hpcv. cbv iota in Hpcv.
  injection Hpcv as Hpcv. injection Ht1 as Ht1. injection Ht2 as Ht2.
  rewrite fdiv_one in Hpcv by now apply pos_fin_fin_nonneg.
  assert (Eapg : apg_cost_per_phase r
            = phase_contract_value r * advance_payment_percent_orig p
              * bank_fee_rate p * apg_duration_phased r)
    by (rewrite Hcf; reflexivity).
  assert (Epg : pg_cost_per_phase r
            = phase_contract_value r * pg_percent_phased p
              * bank_fee_rate p * pg_duration_phased r)
    by (rewrite Hcf; reflexivity).
  assert (Ev : apg_value_phased r
            = phase_contract_value r * advance_payment_percent_orig p)
    by (rewrite Hcf; reflexivity).
  assert (Eo : apg_value_orig r
            = total_contract_value p * advance_payment_percent_orig p)
    by (rewrite Hcf; reflexivity).
  split; [now symmetry|]. split; [now rewrite Ev, Eo, <- Hpcv|].
  split.
  - rewrite <- Ht1. apply fmul_one. rewrite Eapg.
    do 2 (apply fmul_nonneg_pos; [|assumption]). now apply fmul_fin_nonneg.
  - rewrite <- Ht2. apply fmul_one. rewrite Epg.
    do 2 (apply fmul_nonneg_pos; [|assumption]). now apply fmul_fin_nonneg.
Qed.

End SinglePhase.

(** ** Scaling by a power of two

    The rounding of the float operations commutes with a move of the
    exponent, away from the two ends of the range. *)

Lemma shr_shift mrs e n k :
  shr mrs (e + k) n = (fst (shr mrs e n), snd (shr mrs e n) + k).
Proof. destruct n; cbn [shr fst snd]; f_equal; lia. Qed.

Lemma shr_nonpos mrs e n : n <= 0 -> shr mrs e n = (mrs, e).
Proof. destruct n; try reflexivity. lia. Qed.

Lemma shr_pos_snd mrs e n : 0 < n -> snd (shr mrs e n) = e + n.
Proof. destruct n; try lia. reflexivity. Qed.

(** Rounding commutes with a scaling by a power of two, as long as the
    rounded value is no subnormal and the scaled one no overflow. *)
Lemma binary_round_aux_scale s M E l k s' m e :
  0 <= M -> 0 <= k ->
  binary_round_aux prec emax s M E l = S754_finite s' m e ->
  -1073 <= e -> e + k <= 971 ->
  binary_round_aux prec emax s M (E + k) l = S754_finite s' m (e + k).
Proof.
  intros HM Hk Hres He Hek. revert Hres.
  unfold binary_round_aux, shr_fexp. rewrite !fexp64.
  set (d := Zdigits2 M).
  set (k1 := Z.max (d + E - 53) (-1074) - E).
  set (k1' := Z.max (d + (E + k) - 53) (-1074) - (E + k)).
  destruct (shr_spec (shr_record_of_loc M l) E k1) as (H1 & He1 & Hb1);
    [rewrite shr_record_of_loc_m; lia|].
  rewrite shr_record_of_loc_m in Hb1.
  destruct (shr (shr_record_of_loc M l) E k1) as [mrs1 e1] eqn:Hs1.
  cbn [fst snd] in H1, He1, Hb1.
  set (mr := round_nearest_even (shr_m mrs1) (loc_of_shr_record mrs1)).
  pose proof (round_nearest_even_bounds (shr_m mrs1) (loc_of_shr_record mrs1)) as Hr.
  fold mr in Hr.
  rewrite !fexp64.
  set (k2 := Z.max (Zdigits2 mr + e1 - 53) (-1074) - e1).
  destruct (shr_spec (shr_record_of_loc mr loc_Exact) e1 k2) as (H2 & He2 & _);
    [cbn; lia|].
  destruct (shr (shr_record_of_loc mr loc_Exact) e1 k2) as [mrs2 e2] eqn:Hs2.
  cbn [fst snd] in H2, He2.
  intros Hres.
  destruct (shr_m mrs2) as [|p|p] eqn:Hp; try discriminate.
  destruct (e2 <=? emax - prec); try discriminate.
  injection Hres as <- <- <-.
  (* the first shift *)
  assert (Hstage1 : shr (shr_record_of_loc M l) (E + k) k1' = (mrs1, e1 + k)).
  { destruct (Z_le_gt_dec k1 0) as [Hle|Hgt].
    - rewrite shr_nonpos in Hs1 by assumption. injection Hs1 as <- <-.
      apply shr_nonpos. subst k1 k1'. lia.
    - assert (Hunclamped : -1074 <= d + E - 53).
      { destruct (Z_le_gt_dec (-1074) (d + E - 53)) as [|Hcl]; [assumption|].
        exfalso.
        assert (Hk1 : k1 = -1074 - E) by (subst k1; lia).
        assert (He1' : e1 = -1074) by lia.
        assert (Hd : 0 <= d) by apply Zdigits2_nonneg.
        assert (HMd : M < 2 ^ d).
        { destruct (Z.eq_dec M 0) as [->|]; [apply Z.pow_pos_nonneg; lia|].
          apply Zdigits2_bounds. lia. }
        assert (Hm1 : shr_m mrs1 < 2 ^ 52).
        { destruct (Z_lt_ge_dec (shr_m mrs1) (2 ^ 52)) as [|Hge]; [assumption|].
          exfalso. rewrite Z.max_l in Hb1 by lia.
          assert (2 ^ 52 * 2 ^ k1 <= shr_m mrs1 * 2 ^ k1).
          { apply Z.mul_le_mono_nonneg_r; [apply Z.pow_nonneg|]; lia. }
          rewrite <- Z.pow_add_r in * by lia.
          assert (2 ^ d <= 2 ^ (52 + k1)) by (apply Z.pow_le_mono_r; lia).
          lia. }
        assert (Hdr : Zdigits2 mr <= 53).
        { pose proof (Zdigits2_le mr 52). lia. }
        subst k2. lia. }
      assert (Hsame : k1' = k1) by (subst k1 k1'; lia).
      rewrite Hsame, shr_shift, Hs1. reflexivity. }
  rewrite Hstage1. fold mr.
  rewrite !fexp64.
  set (k2' := Z.max (Zdigits2 mr + (e1 + k) - 53) (-1074) - (e1 + k)).
  assert (Hstage2 : shr (shr_record_of_loc mr loc_Exact) (e1 + k) k2'
                    = (mrs2, e2 + k)).
  { destruct (Z_le_gt_dec k2 0) as [Hle|Hgt].
    - rewrite shr_nonpos in Hs2 by assumption. injection Hs2 as <- <-.
      apply shr_nonpos. subst k2 k2'. lia.
    - assert (Hsame : k2' = k2) by (subst k2 k2'; lia).
      rewrite Hsame, shr_shift, Hs2. reflexivity. }
  rewrite Hstage2, Hp.
  destruct (Z.leb_spec (e2 + k) (emax - prec)) as [|Hgt]; [reflexivity|].
  change (emax - prec) with 971 in Hgt. lia.
Qed.

(** Rounding in the subnormal range leaves the least exponent. *)
Lemma binary_round_aux_clamped s M E l s' m e :
  0 <= M -> Zdigits2 M + E - 53 < -1074 -> E <= -1074 ->
  binary_round_aux prec emax s M E l = S754_finite s' m e -> e = -1074.
Proof.
  intros HM Hcl HE. unfold binary_round_aux, shr_fexp. rewrite !fexp64.
  set (d := Zdigits2 M) in *.
  set (k1 := Z.max (d + E - 53) (-1074) - E).
  assert (Hk1 : k1 = -1074 - E) by (subst k1; lia).
  destruct (shr_spec (shr_record_of_loc M l) E k1) as (H1 & He1 & Hb1);
    [rewrite shr_record_of_loc_m; lia|].
  rewrite shr_record_of_loc_m in Hb1.
  destruct (shr (shr_record_of_loc M l) E k1) as [mrs1 e1].
  cbn [fst snd] in H1, He1, Hb1.
  set (mr := round_nearest_even (shr_m mrs1) (loc_of_shr_record mrs1)).
  pose proof (round_nearest_even_bounds (shr_m mrs1) (loc_of_shr_record mrs1)) as Hr.
  fold mr in Hr.
  rewrite !fexp64.
  set (k2 := Z.max (Zdigits2 mr + e1 - 53) (-1074) - e1).
  assert (Hd : 0 <= d) by apply Zdigits2_nonneg.
  assert (HMd : M < 2 ^ d).
  { destruct (Z.eq_dec M 0) as [->|]; [apply Z.pow_pos_nonneg; lia|].
    apply Zdigits2_bounds. lia. }
  assert (Hm1 : shr_m mrs1 < 2 ^ 52).
  { destruct (Z_lt_ge_dec (shr_m mrs1) (2 ^ 52)) as [|Hge]; [assumption|].
    exfalso. rewrite Z.max_l in Hb1 by lia.
    assert (2 ^ 52 * 2 ^ k1 <= shr_m mrs1 * 2 ^ k1).
    { apply Z.mul_le_mono_nonneg_r; [apply Z.pow_nonneg|]; lia. }
    rewrite <- Z.pow_add_r in * by lia.
    assert (2 ^ d <= 2 ^ (52 + k1)) by (apply Z.pow_le_mono_r; lia).
    lia. }
  assert (Hdr : Zdigits2 mr <= 53).
  { pose proof (Zdigits2_le mr 52). lia. }
  assert (Hk2 : k2 <= 0) by (subst k2; lia).
  rewrite (shr_nonpos _ _ _ Hk2).
  destruct (shr_m (shr_record_of_loc mr loc_Exact)) as [|p|p];
    try discriminate.
  destruct (e1 <=? emax - prec); try discriminate.
  intros [= _ _ <-]. lia.
Qed.

Lemma iter_xO m n : Z.pos (Pos.iter xO m n) = Z.pos m * 2 ^ Z.pos n.
Proof.
  induction n as [|n IH] using Pos.peano_ind.
  - cbn. lia.
  - rewrite Pos.iter_succ, Pos2Z.inj_succ, Z.pow_succ_r by lia.
    rewrite Pos2Z.inj_xO, IH. ring.
Qed.

Lemma shl_align_scale mx ex ez k :
  shl_align mx (ex + k) (ez + k)
  = (fst (shl_align mx ex ez), snd (shl_align mx ex ez) + k).
Proof.
  unfold shl_align. replace (ez + k - (ex + k)) with (ez - ex) by lia.
  destruct (ez - ex); reflexivity.
Qed.

Lemma binary_round_scale s m E k s' m' e :
  0 <= k ->
  binary_round prec emax s m E = S754_finite s' m' e ->
  -1073 <= e -> e + k <= 971 ->
  binary_round prec emax s m (E + k) = S754_finite s' m' (e + k).
Proof.
  intros Hk Hres He Hek. revert Hres. unfold binary_round.
  change (Z.pos (digits2_pos m)) with (Zdigits2 (Z.pos m)).
  set (d := Zdigits2 (Z.pos m)).
  assert (Hd : 0 < d) by (subst d; cbn; lia).
  rewrite !fexp64.
  destruct (Z_le_gt_dec (-1074) (d + E - 53)) as [Hun|Hcl].
  - replace (Z.max (d + (E + k) - 53) (-1074))
      with (Z.max (d + E - 53) (-1074) + k) by lia.
    rewrite shl_align_scale.
    destruct (shl_align m E (Z.max (d + E - 53) (-1074))) as [mz ez].
    cbn [fst snd]. intros Hres.
    now apply binary_round_aux_scale.
  - intros Hres. exfalso.
    rewrite Z.max_r in Hres by lia. unfold shl_align in Hres.
    destruct (-1074 - E) as [|q|q] eqn:Hq.
    + apply binary_round_aux_clamped in Hres; [lia|lia| |lia].
      fold d. lia.
    + apply binary_round_aux_clamped in Hres; [lia|lia| |lia].
      fold d. lia.
    + apply binary_round_aux_clamped in Hres; [lia|lia| |lia].
      rewrite iter_xO, Zdigits2_mul_pow2 by lia. fold d. lia.
Qed.

Lemma binary_normalize_scale M E k s' m' e :
  0 <= k ->
  binary_normalize prec emax M E false = S754_finite s' m' e ->
  -1073 <= e -> e + k <= 971 ->
  binary_normalize prec emax M (E + k) false = S754_finite s' m' (e + k).
Proof.
  intros Hk Hres He Hek. destruct M as [|p|p]; cbn [binary_normalize] in *;
    [discriminate| |]; now apply binary_round_scale.
Qed.

Lemma binary_round_aux_exact_signed s mx ex j :
  valid_binary (S754_finite s mx ex) = true -> 0 <= j ->
  binary_round_aux prec emax s (Z.pos mx * 2 ^ j) (ex - j) loc_Exact
  = S754_finite s mx ex.
Proof.
  intros Hx Hj. destruct (valid_binary_bounds _ _ _ Hx) as [Hcan Hex].
  unfold binary_round_aux, shr_fexp.
  rewrite Zdigits2_mul_pow2 by lia.
  replace (Zdigits2 (Z.pos mx) + j + (ex - j)) with (Zdigits2 (Z.pos mx) + ex) by lia.
  rewrite Hcan. replace (ex - (ex - j)) with j by lia.
  cbn [shr_record_of_loc]. rewrite shr_exact by lia.
  replace (ex - j + j) with ex by lia.
  cbn [shr_m loc_of_shr_record round_nearest_even].
  rewrite Hcan, Z.sub_diag. cbn [shr_record_of_loc shr shr_m].
  destruct (Z.leb_spec ex (emax - prec)) as [|Hgt]; [reflexivity|].
  change (emax - prec) with 971 in Hgt. lia.
Qed.

Lemma valid_scale s m e k :
  valid_binary (S754_finite s m e) = true ->
  -1073 <= e -> -1073 <= e + k <= 971 ->
  valid_binary (S754_finite s m (e + k)) = true.
Proof.
  intros Hx He Hek. destruct (valid_binary_bounds _ _ _ Hx) as [Hcan Hex].
  rewrite fexp64 in Hcan.
  cbn [SpecFloat.valid_binary]. unfold bounded, canonical_mantissa.
  change (Z.pos (digits2_pos m)) with (Zdigits2 (Z.pos m)).
  rewrite andb_true_iff, Z.eqb_eq, Z.leb_le, fexp64.
  change (emax - prec) with 971. lia.
Qed.


Lemma SFmul_pow2_l k x :
  valid_binary x = true -> is_zero_sf x \/ SF_in_range x -> 0 <= k <= 2 ->
  SFmul prec emax (SF_pow2 k) x = SF_scale k x.
Proof.
  intros Hv Hx Hk. destruct x as [s|s| |s m e]; cbn in Hx; try tauto.
  destruct Hx as [[]|Hx]. unfold SF_pow2. cbn [SFmul SF_scale xorb].
    rewrite Pos2Z.inj_mul, Z.mul_comm.
    change (Z.pos 4503599627370496) with (2 ^ 52).
    replace (k - 52 + e) with (e + k - 52) by lia.
    apply binary_round_aux_exact_signed; [|lia].
    apply valid_scale; [assumption|lia|lia].
Qed.

(** The product with a scaled factor is the scaled product. *)
Lemma SFmul_scale k x y :
  0 <= k <= 2 -> SF_is_finite x = true -> SF_is_finite y = true ->
  is_zero_sf x \/ is_zero_sf y \/ SF_in_range (SFmul prec emax x y) ->
  SFmul prec emax (SF_scale k x) y = SF_scale k (SFmul prec emax x y).
Proof.
  intros Hk Hx Hy Hr.
  destruct x as [sx|sx| |sx mx ex], y as [sy|sy| |sy my ey];
    try discriminate; try reflexivity.
  destruct Hr as [[]|[[]|Hr]].
  cbn [SFmul SF_scale] in *.
  destruct (binary_round_aux prec emax (xorb sx sy) (Z.pos (mx * my)) (ex + ey)
              loc_Exact) as [| | |s' m' e'] eqn:Hres; cbn in Hr; try tauto.
  cbn [SF_scale].
  replace (ex + k + ey) with (ex + ey + k) by lia.
  apply binary_round_aux_scale; try assumption; lia.
Qed.

(** The quotient of a scaled dividend is the scaled quotient. *)
Lemma SFdiv_scale k sx mx ex sy my ey :
  0 <= k <= 2 ->
  -1074 <= Zdigits2 (Z.pos mx) + ex - (Zdigits2 (Z.pos my) + ey) - 53 ->
  SF_in_range (SFdiv prec emax (S754_finite sx mx ex) (S754_finite sy my ey)) ->
  SFdiv prec emax (S754_finite sx mx (ex + k)) (S754_finite sy my ey)
  = SF_scale k (SFdiv prec emax (S754_finite sx mx ex) (S754_finite sy my ey)).
Proof.
  intros Hk Hun. cbn [SFdiv]. unfold SFdiv_core_binary. rewrite !fexp64.
  set (t := Zdigits2 (Z.pos mx) + ex - (Zdigits2 (Z.pos my) + ey)) in *.
  replace (Zdigits2 (Z.pos mx) + (ex + k) - (Zdigits2 (Z.pos my) + ey))
    with (t + k) by (subst t; lia).
  set (e' := Z.min (Z.max (t - 53) (-1074)) (ex - ey)).
  replace (Z.min (Z.max (t + k - 53) (-1074)) (ex + k - ey))
    with (e' + k) by (subst e'; lia).
  replace (ex + k - ey - (e' + k)) with (ex - ey - e') by lia.
  set (m' := match ex - ey - e' with
             | 0 => Z.pos mx
             | Z.pos _ => Z.shiftl (Z.pos mx) (ex - ey - e')
             | Z.neg _ => 0
             end).
  assert (Hm' : 0 <= m').
  { subst m'. destruct (ex - ey - e') eqn:Hs; try lia.
    rewrite <- Hs. apply Z.shiftl_nonneg. lia. }
  destruct (div_eucl_bounds m' (Z.pos my) Hm' ltac:(lia)) as [Hq _].
  destruct (Z.div_eucl m' (Z.pos my)) as [q r]. cbn [fst] in Hq.
  intros Hr.
  destruct (binary_round_aux prec emax (xorb sx sy) q e'
              (new_location (Z.pos my) r)) as [| | |s' mz ez] eqn:Hres;
    cbn in Hr; try tauto.
  cbn [SF_scale]. apply binary_round_aux_scale; try assumption; lia.
Qed.

(** The sum of two scaled terms is the scaled sum. *)
Lemma SFadd_scale k x y :
  0 <= k <= 2 -> SF_is_finite x = true -> SF_is_finite y = true ->
  is_zero_sf x \/ is_zero_sf y \/ SF_in_range (SFadd prec emax x y) ->
  SFadd prec emax (SF_scale k x) (SF_scale k y)
  = SF_scale k (SFadd prec emax x y).
Proof.
  intros Hk Hx Hy Hr.
  destruct x as [sx|sx| |sx mx ex], y as [sy|sy| |sy my ey];
    try discriminate; try reflexivity.
  - destruct sx, sy; reflexivity.
  - destruct Hr as [[]|[[]|Hr]].
    cbn [SFadd SF_scale] in *.
    replace (Z.min (ex + k) (ey + k)) with (Z.min ex ey + k) by lia.
    rewrite !shl_align_scale. cbn [fst].
    set (M := cond_Zopp sx (Z.pos (fst (shl_align mx ex (Z.min ex ey))))
              + cond_Zopp sy (Z.pos (fst (shl_align my ey (Z.min ex ey))))) in *.
    destruct (binary_normalize prec emax M (Z.min ex ey) false)
      as [s'| | |s' m' e'] eqn:Hres; cbn in Hr; try tauto.
    cbn [SF_scale]. apply binary_normalize_scale; try assumption; lia.
Qed.

(** The difference of two scaled terms is the scaled difference. *)
Lemma SFsub_scale k x y :
  0 <= k <= 2 -> SF_is_finite x = true -> SF_is_finite y = true ->
  is_zero_sf x \/ is_zero_sf y \/ x = y \/ SF_in_range (SFsub prec emax x y) ->
  SFsub prec emax (SF_scale k x) (SF_scale k y)
  = SF_scale k (SFsub prec emax x y).
Proof.
  intros Hk Hx Hy Hr.
  destruct x as [sx|sx| |sx mx ex], y as [sy|sy| |sy my ey];
    try discriminate; try reflexivity.
  - destruct sx, sy; reflexivity.
  - destruct Hr as [[]|[[]|[Heq|Hr]]].
    + injection Heq as <- <- <-. cbn [SFsub SF_scale].
      rewrite !Z.min_id, !Z.sub_diag. reflexivity.
    + cbn [SFsub SF_scale] in *.
      replace (Z.min (ex + k) (ey + k)) with (Z.min ex ey + k) by lia.
      rewrite !shl_align_scale. cbn [fst].
      set (M := cond_Zopp sx (Z.pos (fst (shl_align mx ex (Z.min ex ey))))
                - cond_Zopp sy (Z.pos (fst (shl_align my ey (Z.min ex ey))))) in *.
      destruct (binary_normalize prec emax M (Z.min ex ey) false)
        as [s'| | |s' m' e'] eqn:Hres; cbn in Hr; try tauto.
      cbn [SF_scale]. apply binary_normalize_scale; try assumption; lia.
Qed.


Lemma is_zero_sf_of (x : float) : is_zero x = true -> is_zero_sf (Prim2SF x).
Proof.
  unfold is_zero. rewrite FloatAxioms.eqb_spec.
  change (Prim2SF zero) with (S754_zero false).
  destruct (Prim2SF x) as [s|[|]| |[|] m e]; cbn; intros H;
    try discriminate H; exact I.
Qed.

Lemma in_range_spec (z : float) : in_range z = true -> SF_in_range (Prim2SF z).
Proof.
  unfold in_range. rewrite andb_true_iff, !leb_spec, abs_spec.
  change (Prim2SF 0x1p-1019) with (S754_finite false 4503599627370496 (-1071)).
  change (Prim2SF 0x1p1021) with (S754_finite false 4503599627370496 969).
  destruct (Prim2SF z) as [s|s| |s m e]; cbn [SFabs]; unfold SFleb, SFcompare;
    intros [Hlo Hhi]; try discriminate.
  cbn [SF_in_range].
  destruct (Z.compare_spec (-1071) e); try discriminate;
    destruct (Z.compare_spec e 969); try discriminate; lia.
Qed.

Lemma zero_or_in_range_finite x :
  is_zero_sf x \/ SF_in_range x -> SF_is_finite x = true.
Proof. destruct x; cbn; tauto. Qed.

Lemma eqb_same (x y : float) :
  (x =? y)%float = true ->
  SF_is_finite (Prim2SF x) = true -> SF_is_finite (Prim2SF y) = true ->
  is_zero_sf (Prim2SF x) \/ Prim2SF x = Prim2SF y.
Proof.
  rewrite FloatAxioms.eqb_spec. unfold SFeqb, SFcompare.
  destruct (Prim2SF x) as [sx|sx| |sx mx ex], (Prim2SF y) as [sy|sy| |sy my ey];
    cbn; try discriminate; try tauto.
  - destruct sx; discriminate.
  - intros H _ _. right.
    change (Pos.compare_cont Eq mx my) with (Pos.compare mx my) in H.
    destruct sx, sy; try discriminate;
      destruct (Z.compare_spec ex ey); try discriminate;
      destruct (Pos.compare_spec mx my); try discriminate; congruence.
Qed.

Section Scaling.

Local Open Scope float_scope.

Variable k : Z.
Hypothesis Hk : (0 <= k <= 2)%Z.

Lemma fmul_scaled (x x' y z z' : float) :
  z = x * y -> z' = x' * y ->
  scaled k x x' -> SF_is_finite (Prim2SF y) = true ->
  scales x y z = true -> scaled k z z'.
Proof.
  intros -> -> [Hx Hzr] Hy Hs.
  pose proof (zero_or_in_range_finite _ Hzr) as Hfx.
  assert (Hcase : is_zero_sf (Prim2SF x) \/ is_zero_sf (Prim2SF y)
                  \/ SF_in_range (Prim2SF (x * y))).
  { unfold scales in Hs. rewrite !orb_true_iff in Hs.
    destruct Hs as [[H|H]|H];
      [left; now apply is_zero_sf_of
      |right; left; now apply is_zero_sf_of
      |right; right; now apply in_range_spec]. }
  split.
  - rewrite mul_spec in Hcase. rewrite !mul_spec, Hx. unfold SF64mul in *.
    now apply SFmul_scale.
  - destruct Hcase as [H|[H|H]]; [| |now right]; left;
      rewrite mul_spec; unfold SF64mul;
      destruct (Prim2SF x), (Prim2SF y); cbn in *; try tauto; discriminate.
Qed.

Lemma fadd_scaled (a a' b b' z z' : float) :
  z = a + b -> z' = a' + b' ->
  scaled k a a' -> scaled k b b' ->
  scales a b z = true -> scaled k z z'.
Proof.
  intros -> -> [Ha Hzra] [Hb Hzrb] Hs.
  pose proof (zero_or_in_range_finite _ Hzra) as Hfa.
  pose proof (zero_or_in_range_finite _ Hzrb) as Hfb.
  assert (Hcase : is_zero_sf (Prim2SF a) \/ is_zero_sf (Prim2SF b)
                  \/ SF_in_range (Prim2SF (a + b))).
  { unfold scales in Hs. rewrite !orb_true_iff in Hs.
    destruct Hs as [[H|H]|H];
      [left; now apply is_zero_sf_of
      |right; left; now apply is_zero_sf_of
      |right; right; now apply in_range_spec]. }
  split.
  - rewrite add_spec in Hcase. rewrite !add_spec, Ha, Hb.
    unfold SF64add in *. now apply SFadd_scale.
  - destruct Hcase as [H|[H|H]]; [| |now right];
      rewrite add_spec; unfold SF64add;
      destruct (Prim2SF a) as [[|]| | |], (Prim2SF b) as [[|]| | |];
      cbn in *; tauto.
Qed.

Lemma fsub_scaled (a a' b b' z z' : float) :
  z = a - b -> z' = a' - b' ->
  scaled k a a' -> scaled k b b' ->
  diff_scales a b z = true -> scaled k z z'.
Proof.
  intros -> -> [Ha Hzra] [Hb Hzrb] Hs.
  pose proof (zero_or_in_range_finite _ Hzra) as Hfa.
  pose proof (zero_or_in_range_finite _ Hzrb) as Hfb.
  assert (Hcase : is_zero_sf (Prim2SF a) \/ is_zero_sf (Prim2SF b)
                  \/ Prim2SF a = Prim2SF b
                  \/ SF_in_range (Prim2SF (a - b))).
  { unfold diff_scales in Hs. rewrite !orb_true_iff in Hs.
    destruct Hs as [[[H|H]|H]|H].
    - left. now apply is_zero_sf_of.
    - right; left. now apply is_zero_sf_of.
    - destruct (eqb_same a b H Hfa Hfb); tauto.
    - right; right; right. now apply in_range_spec. }
  split.
  - rewrite sub_spec in Hcase. rewrite !sub_spec, Ha, Hb.
    unfold SF64sub in *. now apply SFsub_scale.
  - destruct Hcase as [H|[H|[H|H]]]; [| | |now right];
      rewrite sub_spec; unfold SF64sub.
    + destruct (Prim2SF a) as [[|]| | |], (Prim2SF b) as [[|]| | |];
        cbn in *; tauto.
    + destruct (Prim2SF a) as [[|]| | |], (Prim2SF b) as [[|]| | |];
        cbn in *; tauto.
    + rewrite <- H. destruct (Prim2SF a) as [[|]| | |sa ma ea];
        cbn in *; try tauto; try discriminate.
      rewrite Z.sub_diag. cbn. tauto.
Qed.

End Scaling.

Section RunSteps.

Context {F : Type} `{PyNumber F}.

(** The figures of a run, each from the ones before it. *)
Lemma run_steps (p : InputParameters F) (r : CalculationResult F) :
  run p r ->
  apg_value_orig r = fmul (total_contract_value p) (advance_payment_percent_orig p) /\
  pg_value_orig r = fmul (total_contract_value p) (pg_percent_orig p) /\
  apg_value_phased r = fmul (phase_contract_value r) (advance_payment_percent_orig p) /\
  pg_value_phased r = fmul (phase_contract_value r) (pg_percent_phased p) /\
  apg_annual_cost_orig r = fmul (apg_value_orig r) (bank_fee_rate p) /\
  apg_total_cost_orig r = fmul (apg_annual_cost_orig r) (apg_duration_orig r) /\
  pg_annual_cost_orig r = fmul (pg_value_orig r) (bank_fee_rate p) /\
  pg_total_cost_orig r = fmul (pg_annual_cost_orig r) (pg_duration_orig r) /\
  total_cost_orig r = fadd (apg_total_cost_orig r) (pg_total_cost_orig r) /\
  apg_annual_cost_phased r = fmul (apg_value_phased r) (bank_fee_rate p) /\
  apg_cost_per_phase r = fmul (apg_annual_cost_phased r) (apg_duration_phased r) /\
  pg_annual_cost_phased r = fmul (pg_value_phased r) (bank_fee_rate p) /\
  pg_cost_per_phase r = fmul (pg_annual_cost_phased r) (pg_duration_phased r) /\
  total_cost_phased r = fadd (apg_total_cost_phased r) (pg_total_cost_phased r) /\
  apg_savings r = fsub (apg_total_cost_orig r) (apg_total_cost_phased r) /\
  pg_savings r = fsub (pg_total_cost_orig r) (pg_total_cost_phased r) /\
  total_savings r = fsub (total_cost_orig r) (total_cost_phased r) /\
  credit_line_orig r = apg_value_orig r /\
  credit_line_phased r = fadd (apg_value_phased r) (pg_value_phased r) /\
  credit_line_savings r = fsub (credit_line_orig r) (credit_line_phased r).
Proof.
  intros [_ _ _ _ _ _ _ Hcf]. repeat split; rewrite Hcf; reflexivity.
Qed.

End RunSteps.

Lemma phase_count_float (n : Z) (y : float) :
  1 <= n <= 5 -> float_of_int n = Ok y -> is_phase_count (Prim2SF y) = true.
Proof.
  intros Hn Hy.
  pose proof (all_from_spec
                (fun k => match float_of_int k with
                          | Ok y => is_phase_count (Prim2SF y)
                          | Raise _ => false
                          end) 5 1) as Hall.
  cbv beta in Hall. specialize (Hall ltac:(vm_compute; reflexivity) n ltac:(lia)).
  rewrite Hy in Hall. exact Hall.
Qed.

Lemma in_range_digits s m e :
  valid_binary (S754_finite s m e) = true -> -1073 <= e ->
  Zdigits2 (Z.pos m) = 53.
Proof.
  intros Hv He. destruct (valid_binary_bounds _ _ _ Hv) as [Hcan _].
  rewrite fexp64 in Hcan. lia.
Qed.

Section ScalingInts.

Local Open Scope float_scope.

Variable k : Z.
Hypothesis Hk : (0 <= k <= 2)%Z.

Lemma float_div_int_scaled (x x' : float) (n : Z) (z z' : float) :
  (1 <= n <= 5)%Z ->
  float_div_int x n = Ok z -> float_div_int x' n = Ok z' ->
  scaled k x x' -> SF_in_range (Prim2SF x) -> in_range z = true ->
  scaled k z z'.
Proof.
  intros Hn. unfold float_div_int.
  destruct (float_of_int n) as [y|] eqn:Hy; cbn [bind]; [|discriminate].
  destruct (is_zero y); [discriminate|]. intros [= <-] [= <-] [Hx _] Hxr Hz.
  apply in_range_spec in Hz. split; [|now right].
  pose proof (phase_count_float n y Hn Hy) as Hc.
  pose proof (Prim2SF_valid x) as Hvx.
  rewrite div_spec in Hz. rewrite !div_spec, Hx. unfold SF64div in *.
  destruct (Prim2SF x) as [| | |sx mx ex]; cbn in Hxr; try contradiction.
  destruct (Prim2SF y) as [| | |[|] my ey]; cbn [is_phase_count] in Hc;
    try discriminate.
  rewrite !andb_true_iff, Z.eqb_eq, !Z.leb_le in Hc.
  destruct Hc as [[Hd Hlo] Hhi].
  cbn [SF_scale]. apply SFdiv_scale; [assumption| |assumption].
  rewrite Hd, (in_range_digits _ _ _ Hvx) by lia. lia.
Qed.

Lemma float_mul_int_scaled (x x' : float) (n : Z) (z z' : float) :
  (1 <= n <= 5)%Z ->
  float_mul_int x n = Ok z -> float_mul_int x' n = Ok z' ->
  scaled k x x' -> scales_from x z = true ->
  scaled k z z'.
Proof.
  intros Hn. unfold float_mul_int.
  destruct (float_of_int n) as [y|] eqn:Hy; cbn [bind]; [|discriminate].
  intros [= <-] [= <-] Hx Hs.
  pose proof (phase_count_float n y Hn Hy) as Hc.
  eapply (fmul_scaled k Hk); [reflexivity|reflexivity|exact Hx| |].
  - destruct (Prim2SF y) as [| | |[|] my ey]; try discriminate. reflexivity.
  - unfold scales_from in Hs. unfold scales.
    apply orb_true_iff in Hs as [->| ->]; [reflexivity|].
    now rewrite orb_true_r.
Qed.

Lemma scaled_pow2_l (c x : float) :
  Prim2SF c = SF_pow2 k ->
  is_zero_sf (Prim2SF x) \/ SF_in_range (Prim2SF x) ->
  scaled k x (c * x).
Proof.
  intros Hc Hx. split; [|assumption].
  rewrite mul_spec, Hc. unfold SF64mul.
  apply SFmul_pow2_l; [apply Prim2SF_valid|assumption|assumption].
Qed.

Lemma scaled_eq (x x1 x2 : float) :
  scaled k x x1 -> scaled k x x2 -> x1 = x2.
Proof. intros [H1 _] [H2 _]. apply Prim2SF_eq. congruence. Qed.

End ScalingInts.

Lemma scaled_double (z z' : float) : scaled 1 z z' -> (z' = 2 * z)%float.
Proof.
  intros Hz. apply (scaled_eq 1 z); [assumption|].
  apply scaled_pow2_l; [lia|reflexivity|apply Hz].
Qed.

(** ** Doubling the contract value *)

(** Splits the conjunctions among the hypotheses. *)
Ltac split_ands :=
  repeat match goal with
         | H : _ /\ _ |- _ => destruct H
         end.

Section Doubling.

Local Open Scope float_scope.

(** C7. In binary64, doubling the contract value with all other parameters
    fixed doubles every value, cost, saving and credit-line figure bit for
    bit and leaves the four durations unchanged, for every valid input whose
    run is clear of underflow and overflow ([no_underflow]): the contract
    value, the contract value of one phase and every product, sum and
    difference of the block that is not a zero of zero terms is of magnitude
    from [2^-1019] to [2^1021]. *)
Theorem doubling_contract_value_doubles_binary64 (p : InputParameters float) :
  valid p -> no_underflow p = true ->
  exists r r2,
    calculations p = Ok r /\
    calculations (with_total_contract_value p (2 * total_contract_value p))
      = Ok r2 /\
    scaled_by eq 2 r r2.
Proof.
  intros Hv Hnu.
  destruct (calculations_valid_run p Hv) as [r [Hr Hrun]].
  unfold no_underflow in Hnu. rewrite Hr in Hnu.
  unfold figures_in_range, phased_costs_in_range in Hnu.
  cbn [forallb] in Hnu. rewrite !andb_true_iff in Hnu. split_ands.
  set (p2 := with_total_contract_value p (2 * total_contract_value p)).
  destruct (valid_valid_floats p Hv) as [Htcv Hadv Hpgo Hpgp Hrate].
  destruct (valid_valid_counts p Hv) as [Hco Hdo Hn Hcp Hdp].
  destruct (calculations_counts_Ok p2) as [r2 Hr2]; [split; assumption|].
  pose proof (calculations_Ok_run p2 r2 Hr2) as Hrun2.
  exists r, r2. split; [exact Hr|]. split; [exact Hr2|].
  pose proof (run_steps p r Hrun)
    as (A1 & A2 & A3 & A4 & A5 & A6 & A7 & A8 & A9 & A10 & A11 & A12 & A13
        & A14 & A15 & A16 & A17 & A18 & A19 & A20).
  pose proof (run_steps p2 r2 Hrun2)
    as (B1 & B2 & B3 & B4 & B5 & B6 & B7 & B8 & B9 & B10 & B11 & B12 & B13
        & B14 & B15 & B16 & B17 & B18 & B19 & B20).
  destruct Hrun as [Hpcv Hd1 Hd2 Hd3 Hd4 Ht1 Ht2 _].
  destruct Hrun2 as [Hpcv' Hd1' Hd2' Hd3' Hd4' Ht1' Ht2' _].
  cbn [fmul fadd fsub fdiv_int fmul_int int_truediv PyNumber_float] in *.
  cbn [p2 with_total_contract_value total_contract_value num_phases
       advance_payment_percent_orig pg_percent_orig pg_percent_phased
       bank_fee_rate construction_duration_orig dlp_duration_orig
       construction_duration_phased dlp_duration_phased] in *.
  assert (D1 : apg_duration_orig r2 = apg_duration_orig r) by congruence.
  assert (D2 : pg_duration_orig r2 = pg_duration_orig r) by congruence.
  assert (D3 : apg_duration_phased r2 = apg_duration_phased r) by congruence.
  assert (D4 : pg_duration_phased r2 = pg_duration_phased r) by congruence.
  rewrite D1 in B6. rewrite D2 in B8. rewrite D3 in B11. rewrite D4 in B13.
  assert (F1 : SF_is_finite (Prim2SF (apg_duration_orig r)) = true)
    by (apply pos_fin_finite; eapply duration_pos_fin; [|exact Hd1]; lia).
  assert (F2 : SF_is_finite (Prim2SF (pg_duration_orig r)) = true)
    by (apply pos_fin_finite; eapply duration_pos_fin; [|exact Hd2]; lia).
  assert (F3 : SF_is_finite (Prim2SF (apg_duration_phased r)) = true)
    by (apply pos_fin_finite; eapply duration_pos_fin; [|exact Hd3]; lia).
  assert (F4 : SF_is_finite (Prim2SF (pg_duration_phased r)) = true)
    by (apply pos_fin_finite; eapply duration_pos_fin; [|exact Hd4]; lia).
  apply fin_nonneg_finite in Hadv, Hpgo, Hpgp. apply pos_fin_finite in Hrate.
  assert (K : (0 <= 1 <= 2)%Z) by lia.
  assert (Rtcv : SF_in_range (Prim2SF (total_contract_value p)))
    by now apply in_range_spec.
  assert (S0 : scaled 1 (total_contract_value p) (2 * total_contract_value p))
    by (apply scaled_pow2_l; [lia|reflexivity|now right]).
  assert (Spcv : scaled 1 (phase_contract_value r) (phase_contract_value r2))
    by (eapply (float_div_int_scaled 1 K); eassumption).
  assert (S1 : scaled 1 (apg_value_orig r) (apg_value_orig r2))
    by (eapply (fmul_scaled 1 K); eassumption).
  assert (S2 : scaled 1 (pg_value_orig r) (pg_value_orig r2))
    by (eapply (fmul_scaled 1 K); eassumption).
  assert (S3 : scaled 1 (apg_value_phased r) (apg_value_phased r2))
    by (eapply (fmul_scaled 1 K); eassumption).
  assert (S4 : scaled 1 (pg_value_phased r) (pg_value_phased r2))
    by (eapply (fmul_scaled 1 K); eassumption).
  assert (S5 : scaled 1 (apg_annual_cost_orig r) (apg_annual_cost_orig r2))
    by (eapply (fmul_scaled 1 K); eassumption).
  assert (S6 : scaled 1 (apg_total_cost_orig r) (apg_total_cost_orig r2))
    by (eapply (fmul_scaled 1 K); eassumption).
  assert (S7 : scaled 1 (pg_annual_cost_orig r) (pg_annual_cost_orig r2))
    by (eapply (fmul_scaled 1 K); eassumption).
  assert (S8 : scaled 1 (pg_total_cost_orig r) (pg_total_cost_orig r2))
    by (eapply (fmul_scaled 1 K); eassumption).
  assert (S9 : scaled 1 (total_cost_orig r) (total_cost_orig r2))
    by (eapply (fadd_scaled 1 K); eassumption).
  assert (S10 : scaled 1 (apg_annual_cost_phased r) (apg_annual_cost_phased r2))
    by (eapply (fmul_scaled 1 K); eassumption).
  assert (S11 : scaled 1 (apg_cost_per_phase r) (apg_cost_per_phase r2))
    by (eapply (fmul_scaled 1 K); eassumption).
  assert (S12 : scaled 1 (pg_annual_cost_phased r) (pg_annual_cost_phased r2))
    by (eapply (fmul_scaled 1 K); eassumption).
  assert (S13 : scaled 1 (pg_cost_per_phase r) (pg_cost_per_phase r2))
    by (eapply (fmul_scaled 1 K); eassumption).
  assert (St1 : scaled 1 (apg_total_cost_phased r) (apg_total_cost_phased r2))
    by (eapply (float_mul_int_scaled 1 K); eassumption).
  assert (St2 : scaled 1 (pg_total_cost_phased r) (pg_total_cost_phased r2))
    by (eapply (float_mul_int_scaled 1 K); eassumption).
  assert (S14 : scaled 1 (total_cost_phased r) (total_cost_phased r2))
    by (eapply (fadd_scaled 1 K); eassumption).
  assert (S15 : scaled 1 (apg_savings r) (apg_savings r2))
    by (eapply (fsub_scaled 1 K); eassumption).
  assert (S16 : scaled 1 (pg_savings r) (pg_savings r2))
    by (eapply (fsub_scaled 1 K); eassumption).
  assert (S17 : scaled 1 (total_savings r) (total_savings r2))
    by (eapply (fsub_scaled 1 K); eassumption).
  assert (S18 : scaled 1 (credit_line_orig r) (credit_line_orig r2))
    by (rewrite A18, B18; exact S1).
  assert (S19 : scaled 1 (credit_line_phased r) (credit_line_phased r2))
    by (eapply (fadd_scaled 1 K); eassumption).
  assert (S20 : scaled 1 (credit_line_savings r) (credit_line_savings r2))
    by (eapply (fsub_scaled 1 K); eassumption).
  split; cbn [fmul PyNumber_float];
    first [assumption | apply scaled_double; assumption].
Qed.

End Doubling.

(** ** The phased totals and the number of phases *)

Section PowersOfTwo.

Local Open Scope float_scope.








End PowersOfTwo.

(** With three or with five phases the division by the number of phases
    rounds, and the phased total is not the closed form, although nothing
    underflows: on the scenario with three phases, and with a contract value
    of 7 and five phases. *)
Lemma phased_totals_inexact_with_three_or_five_phases :
  let p3 := with_num_phases scenario 3 in
  let p5 := with_num_phases (with_total_contract_value scenario 7%float) 5 in
  valid p3 /\ phased_no_underflow p3 = true /\
  valid p5 /\ phased_no_underflow p5 = true /\
  exists r3 r5,
    calculations p3 = Ok r3 /\
    calculations p5 = Ok r5 /\
    (apg_total_cost_phased r3
     <> total_contract_value p3 * advance_payment_percent_orig p3
        * bank_fee_rate p3 * apg_duration_phased r3)%float /\
    (apg_total_cost_phased r5
     <> total_contract_value p5 * advance_payment_percent_orig p5
        * bank_fee_rate p5 * apg_duration_phased r5)%float.
Proof.
  cbv zeta. repeat (split; [vm_compute; reflexivity|]).
  destruct (calculations (with_num_phases scenario 3)) as [r3|e] eqn:Hr3;
    vm_compute in Hr3; [|discriminate].
  destruct (calculations
              (with_num_phases (with_total_contract_value scenario 7%float) 5))
    as [r5|e] eqn:Hr5; vm_compute in Hr5; [|discriminate].
  exists r3, r5. injection Hr3 as <-. injection Hr5 as <-.
  repeat split; vm_compute; discriminate.
Qed.

Lemma doubling_contract_value_doubles_binary64_scenario :
  let p := scenario in
  valid p /\ no_underflow p = true /\
  exists r r2,
    calculations p = Ok r /\
    calculations
      (with_total_contract_value p (2 * total_contract_value p)%float)
      = Ok r2 /\
    scaled_by eq 2%float r r2.
Proof.
  cbv zeta. split; [vm_compute; reflexivity|].
  split; [vm_compute; reflexivity|].
  apply (doubling_contract_value_doubles_binary64 scenario);
    vm_compute; reflexivity.
Defined.



(** With three phases the same saving is a negative rounding residue, and
    its cell shows [$-0]. *)
Lemma apg_savings_minus_zero_with_three_phases :
  let p :=
    {| total_contract_value := 320000000%float;
       advance_payment_percent_orig := percent 40;
       pg_percent_orig := percent 30;
       construction_duration_orig := 3;
       dlp_duration_orig := 6;
       num_phases := 3;
       pg_percent_phased := percent 10;
       construction_duration_phased := 3;
       dlp_duration_phased := 6;
       bank_fee_rate := percent 1 |} in
  valid p /\ phased_no_underflow p = true /\
  exists r,
    calculations p = Ok r /\
    (apg_savings r <? 0)%float = true /\
    format_currency (apg_savings r) = "$-0"%string.
Proof.
  cbv zeta. split; [vm_compute; reflexivity|].
  split; [vm_compute; reflexivity|].
  match goal with
  | |- context [calculations ?q = Ok _ /\ _] =>
      destruct (calculations q) as [r|e] eqn:Hr;
      vm_compute in Hr; [|discriminate]
  end.
  exists r. injection Hr as <-. repeat split; vm_compute; reflexivity.
Qed.

(** ** The formatted figures *)

(** *** Rounding keeps the order *)

Lemma round_half_even_tie a d :
  0 <= a -> 0 < d ->
  2 * Z.abs (round_half_even a d * d - a) = d ->
  Z.even (round_half_even a d) = true.
Proof.
  intros Ha Hd. unfold round_half_even.
  pose proof (Z.div_mod a d ltac:(lia)) as Hdm.
  pose proof (Z.mod_pos_bound a d Hd) as Hr.
  destruct (Z.compare_spec (2 * (a mod d)) d) as [He|Hl|Hg].
  - intros _. destruct (Z.even (a / d)) eqn:Hev; [assumption|].
    rewrite Z.add_1_r, Z.even_succ, <- Z.negb_even, Hev. reflexivity.
  - intros Habs. exfalso. nia.
  - intros Habs. exfalso. nia.
Qed.

Lemma scaled_round_units m e :
  -1074 <= e ->
  let n := scaled_round 0 m e in
  2 * Z.abs (n * 2 ^ 1074 - SF_units m e) <= 2 ^ 1074 /\
  (2 * Z.abs (n * 2 ^ 1074 - SF_units m e) = 2 ^ 1074 -> Z.even n = true).
Proof.
  intros He n. subst n. unfold scaled_round, SF_units.
  change (10 ^ Z.of_nat 0) with 1. rewrite Z.mul_1_l.
  assert (HK : 0 < 2 ^ 1074) by (apply Z.pow_pos_nonneg; lia).
  destruct (Z.leb_spec 0 e) as [Hpos|Hneg].
  - rewrite Z.pow_add_r by lia.
    replace (Z.pos m * 2 ^ e * 2 ^ 1074 - Z.pos m * (2 ^ e * 2 ^ 1074))
      with 0 by ring.
    cbn [Z.abs]. split; [lia|]. intros Habs. exfalso. lia.
  - set (d := 2 ^ (- e)). set (c := 2 ^ (e + 1074)).
    assert (Hd : 0 < d) by (apply Z.pow_pos_nonneg; lia).
    assert (Hc : 0 < c) by (apply Z.pow_pos_nonneg; lia).
    assert (HD : 2 ^ 1074 = d * c).
    { subst d c. rewrite <- Z.pow_add_r by lia. f_equal. lia. }
    destruct (round_half_even_spec (Z.pos m) d) as [Hn Hacc]; [lia | lia |].
    pose proof (round_half_even_tie (Z.pos m) d ltac:(lia) Hd) as Htie.
    set (n := round_half_even (Z.pos m) d) in *.
    rewrite HD.
    replace (n * (d * c) - Z.pos m * c) with ((n * d - Z.pos m) * c) by ring.
    rewrite Z.abs_mul, (Z.abs_eq c) by lia.
    split; [nia|]. intros Heq. apply Htie. nia.
Qed.

Lemma rounding_monotone (n1 n2 v1 v2 D : Z) :
  0 < D -> v1 <= v2 ->
  2 * Z.abs (n1 * D - v1) <= D ->
  (2 * Z.abs (n1 * D - v1) = D -> Z.even n1 = true) ->
  2 * Z.abs (n2 * D - v2) <= D ->
  (2 * Z.abs (n2 * D - v2) = D -> Z.even n2 = true) ->
  n1 <= n2.
Proof.
  intros HD Hv H1 T1 H2 T2.
  destruct (Z_le_gt_dec n1 n2) as [|Hgt]; [assumption|]. exfalso.
  assert (Hn : n1 = n2 + 1) by nia.
  assert (E1 : 2 * Z.abs (n1 * D - v1) = D) by nia.
  assert (E2 : 2 * Z.abs (n2 * D - v2) = D) by nia.
  specialize (T1 E1). specialize (T2 E2).
  rewrite Hn, Z.add_1_r, Z.even_succ, <- Z.negb_even, T2 in T1. discriminate.
Qed.

Lemma SFleb_units m1 e1 m2 e2 :
  valid_binary (S754_finite false m1 e1) = true ->
  valid_binary (S754_finite false m2 e2) = true ->
  SFleb (S754_finite false m1 e1) (S754_finite false m2 e2) = true ->
  -1074 <= e1 /\ -1074 <= e2 /\ SF_units m1 e1 <= SF_units m2 e2.
Proof.
  intros H1 H2 Hle.
  destruct (valid_binary_bounds _ _ _ H1) as [Hc1 _].
  destruct (valid_binary_bounds _ _ _ H2) as [Hc2 _].
  rewrite fexp64 in Hc1, Hc2.
  split; [lia|]. split; [lia|].
  unfold SFleb, SFcompare in Hle. unfold SF_units.
  destruct (Z.compare_spec e1 e2) as [He|He|He]; try discriminate.
  - subst e2.
    change (Pos.compare_cont Eq m1 m2) with (Pos.compare m1 m2) in Hle.
    assert (Hm : Z.pos m1 <= Z.pos m2).
    { destruct (Pos.compare_spec m1 m2) as [Hc|Hc|Hc]; try discriminate; lia. }
    apply Z.mul_le_mono_nonneg_r; [apply Z.pow_nonneg; lia | assumption].
  - destruct (Zdigits2_bounds (Z.pos m1)) as [_ Hhi1]; [lia|].
    destruct (Zdigits2_bounds (Z.pos m2)) as [Hlo2 _]; [lia|].
    assert (Hd2 : Zdigits2 (Z.pos m2) = 53) by lia.
    rewrite Hd2 in Hlo2.
    assert (Hm1 : Z.pos m1 < 2 ^ 53).
    { eapply Z.lt_le_trans; [exact Hhi1|]. apply Z.pow_le_mono_r; lia. }
    assert (Hp1 : 0 < 2 ^ (e1 + 1074)) by (apply Z.pow_pos_nonneg; lia).
    assert (Hstep : 2 ^ 53 * 2 ^ (e1 + 1074) <= 2 ^ (53 - 1) * 2 ^ (e2 + 1074)).
    { rewrite <- !Z.pow_add_r by lia. apply Z.pow_le_mono_r; lia. }
    assert (Hp2 : 0 < 2 ^ (e2 + 1074)) by (apply Z.pow_pos_nonneg; lia).
    apply Z.lt_le_incl.
    eapply Z.lt_le_trans;
      [apply Z.mul_lt_mono_pos_r; [exact Hp1 | exact Hm1]|].
    eapply Z.le_trans; [exact Hstep|].
    apply Z.mul_le_mono_nonneg_r; [lia | exact Hlo2].
Qed.

Lemma SF_scaled_monotone (x y : spec_float) :
  valid_binary x = true -> valid_binary y = true ->
  SF_is_finite y = true ->
  SFleb (S754_zero false) x = true -> SFleb x y = true ->
  SF_scaled 0 x <= SF_scaled 0 y.
Proof.
  intros Hvx Hvy Hfy H0 Hle.
  destruct x as [sx|sx| |sx mx ex]; try discriminate.
  - destruct y; cbn [SF_scaled]; try lia. apply scaled_round_nonneg.
  - destruct sx; [discriminate|]. destruct y; discriminate.
  - destruct sx; [discriminate|].
    destruct y as [sy|sy| |sy my ey]; try discriminate.
    destruct sy; [discriminate|].
    destruct (SFleb_units _ _ _ _ Hvx Hvy Hle) as (He1 & He2 & Hu).
    destruct (scaled_round_units mx ex He1) as [A1 T1].
    destruct (scaled_round_units my ey He2) as [A2 T2].
    cbn [SF_scaled].
    apply (rounding_monotone _ _ (SF_units mx ex) (SF_units my ey) (2 ^ 1074));
      try assumption.
    apply Z.pow_pos_nonneg; lia.
Qed.

Section Formatted.

Local Open Scope float_scope.

Lemma is_finite_SF (x : float) :
  is_finite x = true -> SF_is_finite (Prim2SF x) = true.
Proof.
  intros Hfin. pose proof (is_finite_not_infinity x) as Hinf.
  destruct (Prim2SF x) as [s|s| |s m e] eqn:Hx; try reflexivity.
  - exfalso. exact (Hinf s Hfin eq_refl).
  - exfalso. unfold is_finite, is_nan in Hfin.
    rewrite FloatAxioms.eqb_spec, Hx in Hfin. discriminate.
Qed.

Lemma SF_scaled_accurate prec (x : spec_float) :
  (Qabs (inject_Z (SF_scaled prec x)
         - inject_Z (10 ^ Z.of_nat prec) * SF_abs_value x) <= 1 # 2)%Q.
Proof.
  destruct x as [s|s| |s m e]; try apply scaled_round_accurate;
    cbn [SF_scaled SF_abs_value]; apply Qabs_Qle_condition;
    unfold Qle, Qminus, Qplus, Qopp, Qmult, inject_Z; cbn [Qnum Qden];
    split; lia.
Qed.

Lemma SF_scaled_nonneg prec (x : spec_float) : (0 <= SF_scaled prec x)%Z.
Proof. destruct x; cbn; try lia. apply scaled_round_nonneg. Qed.

(** X9. A formatted amount reads back as the sign of the float and a whole
    number within half a unit of its magnitude: for every finite float,
    dropping the dollar sign and the commas and reading the digits gives the
    nearest integer. *)
Theorem format_currency_reads_back (x : float) :
  is_finite x = true ->
  exists n : N,
    read_currency (format_currency x) = Some (SF_sign (Prim2SF x), n) /\
    (Qabs (inject_Z (Z.of_N n) - SF_abs_value (Prim2SF x)) <= 1 # 2)%Q.
Proof.
  intros Hfin. apply is_finite_SF in Hfin.
  exists (Z.to_N (SF_scaled 0 (Prim2SF x))). split.
  - unfold read_currency, format_currency.
    change (Ascii.eqb "$" "$") with true. cbv iota.
    now apply format_f_reads_back.
  - rewrite Z2N.id by apply SF_scaled_nonneg.
    pose proof (SF_scaled_accurate 0 (Prim2SF x)) as Hacc.
    change (inject_Z (10 ^ Z.of_nat 0)) with 1%Q in Hacc.
    now rewrite Qmult_1_l in Hacc.
Qed.

(** X10. A duration printed with one decimal reads back as a number of tenths
    within half a tenth of the float: for every finite float. *)
Theorem format_one_decimal_reads_back (x : float) :
  is_finite x = true ->
  exists n : N,
    read_fixed (format_f false 1 x) = Some (SF_sign (Prim2SF x), n) /\
    (Qabs (inject_Z (Z.of_N n) - 10 * SF_abs_value (Prim2SF x)) <= 1 # 2)%Q.
Proof.
  intros Hfin. apply is_finite_SF in Hfin.
  exists (Z.to_N (SF_scaled 1 (Prim2SF x))). split.
  - now apply format_f_reads_back.
  - rewrite Z2N.id by apply SF_scaled_nonneg.
    exact (SF_scaled_accurate 1 (Prim2SF x)).
Qed.

Lemma fixed_text_grouped_integer n : fixed_text true 0 n = group3 (digits_of n).
Proof.
  unfold fixed_text.
  assert (Hlen : (1 <= length (digits_of n))%nat).
  { pose proof (digits_of_nonempty n). destruct (digits_of n); cbn; [congruence|lia]. }
  replace (0 + 1 - length (digits_of n))%nat with 0%nat by lia.
  cbn [repeat app]. rewrite Nat.sub_0_r, firstn_all, app_nil_r. reflexivity.
Qed.

(** X11. The commas of a formatted amount: after the dollar sign and the sign, the
    text is the digits of the rounded amount in order, with a comma exactly at
    every fourth place counted from the right, hence none in front. *)
Theorem format_currency_grouping (x : float) :
  is_finite x = true ->
  exists body : list ascii,
    format_currency x
    = String "$"
        (string_of_list_ascii (sign_text (SF_sign (Prim2SF x)) ++ body)) /\
    filter keep body = digits_of (SF_scaled 0 (Prim2SF x)) /\
    length body
    = (length (digits_of (SF_scaled 0 (Prim2SF x)))
       + (length (digits_of (SF_scaled 0 (Prim2SF x))) - 1) / 3)%nat /\
    forall i, (i < length body)%nat ->
      (nth i (rev body) "0"%char = ","%char <-> i mod 4 = 3)%nat.
Proof.
  intros Hfin. apply is_finite_SF in Hfin.
  exists (group3 (digits_of (SF_scaled 0 (Prim2SF x)))). split.
  - unfold format_currency, format_f.
    destruct (Prim2SF x) as [s|s| |s m e]; try discriminate;
      cbn [SF_sign SF_scaled]; now rewrite fixed_text_grouped_integer.
  - apply group3_spec, digits_of_digits.
Qed.

(** X12. A negative float of magnitude at most one half is shown as minus zero. *)
Theorem format_currency_small_negative (x : float) :
  (-0.5 <=? x) = true -> (x <? 0) = true -> format_currency x = "$-0"%string.
Proof.
  rewrite leb_spec, ltb_spec, Prim2SF_zero.
  change (Prim2SF (-0.5)) with (S754_finite true 4503599627370496 (-53)).
  intros Hge Hlt. pose proof (Prim2SF_valid x) as Hvalid.
  unfold format_currency, format_f.
  destruct (Prim2SF x) as [s|[|]| |[|] m e]; try discriminate.
  destruct (valid_binary_bounds _ _ _ Hvalid) as [Hcan _].
  rewrite fexp64 in Hcan.
  destruct (Zdigits2_bounds (Z.pos m)) as [_ Hm]; [lia|].
  assert (Hm53 : (Z.pos m < 2 ^ 53)%Z).
  { eapply Z.lt_le_trans; [exact Hm|]. apply Z.pow_le_mono_r; lia. }
  assert (Hround : scaled_round 0 m e = 0%Z).
  { unfold scaled_round. unfold SFleb, SFcompare in Hge.
    change (10 ^ Z.of_nat 0)%Z with 1%Z. rewrite Z.mul_1_l.
    destruct (Z.compare_spec (-53) e) as [He|He|He]; try discriminate.
    - subst e. cbn [Z.leb Z.compare Z.opp].
      assert (Hle : (Z.pos m <= 2 ^ 52)%Z).
      { change (Pos.compare_cont Eq 4503599627370496 m)
          with (Pos.compare 4503599627370496 m) in Hge.
        change (2 ^ 52)%Z with 4503599627370496%Z.
        destruct (Pos.compare_spec 4503599627370496 m) as [Hc|Hc|Hc];
          cbn [CompOpp] in Hge; try discriminate.
        - subst m. reflexivity.
        - exact (Z.lt_le_incl _ _ (Pos2Z.pos_lt_pos _ _ Hc)). }
      unfold round_half_even.
      change (2 ^ 53)%Z with 9007199254740992%Z in *.
      change (2 ^ 52)%Z with 4503599627370496%Z in *.
      rewrite Z.div_small, Z.mod_small by lia.
      destruct (Z.compare_spec (2 * Z.pos m) 9007199254740992); try reflexivity; lia.
    - destruct (Z.leb_spec 0 e); [lia|].
      unfold round_half_even.
      assert (Hd : (2 ^ 54 <= 2 ^ (- e))%Z) by (apply Z.pow_le_mono_r; lia).
      rewrite Z.div_small, Z.mod_small by lia.
      destruct (Z.compare_spec (2 * Z.pos m) (2 ^ (- e))); try reflexivity; lia. }
  rewrite Hround. reflexivity.
Qed.

(** The sign classes of the two total costs on valid parameters. *)
Lemma total_costs_nonneg_sf (p : InputParameters float) :
  valid p ->
  exists r,
    calculations p = Ok r /\
    nonneg_sf (Prim2SF (total_cost_orig r)) /\
    nonneg_sf (Prim2SF (total_cost_phased r)).
Proof.
  intros Hv. destruct (calculations_valid_run p Hv) as [r [Hr Hrun]].
  exists r. split; [exact Hr|].
  destruct (valid_valid_floats p Hv) as [Htcv Hadv Hpgo Hpgp Hrate].
  destruct (valid_valid_counts p Hv) as [Hco Hdo Hn Hcp Hdp].
  destruct Hrun as [Hpcv Hd1 Hd2 Hd3 Hd4 Ht1 Ht2 Hcf].
  cbn [fdiv_int fmul_int int_truediv PyNumber_float] in *.
  assert (Pd1 : pos_fin (Prim2SF (apg_duration_orig r)))
    by (eapply duration_pos_fin; [|exact Hd1]; lia).
  assert (Pd2 : pos_fin (Prim2SF (pg_duration_orig r)))
    by (eapply duration_pos_fin; [|exact Hd2]; lia).
  assert (Pd3 : pos_fin (Prim2SF (apg_duration_phased r)))
    by (eapply duration_pos_fin; [|exact Hd3]; lia).
  assert (Pd4 : pos_fin (Prim2SF (pg_duration_phased r)))
    by (eapply duration_pos_fin; [|exact Hd4]; lia).
  pose proof (float_div_int_fin_nonneg _ _ _ Htcv Hn Hpcv) as Ppcv.
  assert (Eorig : total_cost_orig r
            = total_contract_value p * advance_payment_percent_orig p
              * bank_fee_rate p * apg_duration_orig r
              + total_contract_value p * pg_percent_orig p
                * bank_fee_rate p * pg_duration_orig r)
    by (rewrite Hcf; reflexivity).
  assert (Eapg : apg_cost_per_phase r
            = phase_contract_value r * advance_payment_percent_orig p
              * bank_fee_rate p * apg_duration_phased r)
    by (rewrite Hcf; reflexivity).
  assert (Epg : pg_cost_per_phase r
            = phase_contract_value r * pg_percent_phased p
              * bank_fee_rate p * pg_duration_phased r)
    by (rewrite Hcf; reflexivity).
  assert (Ephased : total_cost_phased r
            = apg_total_cost_phased r + pg_total_cost_phased r)
    by (rewrite Hcf; reflexivity).
  split.
  - rewrite Eorig.
    apply fadd_nonneg; do 2 (apply fmul_nonneg_pos; [|assumption]);
      apply fmul_fin_nonneg; try assumption; now apply pos_fin_fin_nonneg.
  - rewrite Ephased. rewrite Eapg in Ht1. rewrite Epg in Ht2.
    apply fadd_nonneg;
      [ eapply float_mul_int_nonneg; [|exact Hn|exact Ht1]
      | eapply float_mul_int_nonneg; [|exact Hn|exact Ht2] ];
      do 2 (apply fmul_nonneg_pos; [|assumption]);
      now apply fmul_fin_nonneg.
Qed.

Lemma nonneg_cell (x : float) :
  nonneg_sf (Prim2SF x) -> shows_no_negative_amount (format_currency x).
Proof.
  intros Hx. unfold shows_no_negative_amount.
  destruct (Prim2SF x) as [s|s| |s m e] eqn:Ex; cbn in Hx; try contradiction.
  - right. exists s, 0%N. split; [|reflexivity].
    unfold read_currency, format_currency.
    change (Ascii.eqb "$" "$") with true. cbv iota.
    rewrite format_f_reads_back by now rewrite Ex. now rewrite Ex.
  - left. subst s. unfold format_currency, format_f. now rewrite Ex.
  - right. subst s. exists false, (Z.to_N (scaled_round 0 m e)).
    split; [|discriminate].
    unfold read_currency, format_currency.
    change (Ascii.eqb "$" "$") with true. cbv iota.
    rewrite format_f_reads_back by now rewrite Ex. now rewrite Ex.
Qed.

(** X13. On valid parameters the two total-cost cells of the summary table never
    show [nan] or a negative amount: each is [$inf], or reads back as an
    amount whose sign, if any, stands before a zero. *)
Theorem total_cost_cells_nonnegative (p : InputParameters float) :
  valid p ->
  exists r,
    calculations p = Ok r /\
    shows_no_negative_amount (format_currency (total_cost_orig r)) /\
    shows_no_negative_amount (format_currency (total_cost_phased r)).
Proof.
  intros Hv. destruct (total_costs_nonneg_sf p Hv) as [r (Hr & Ho & Hp)].
  exists r. split; [exact Hr|]. split; now apply nonneg_cell.
Qed.

(** X14. Formatting keeps the order of nonnegative amounts: if [0 <= x <= y] with
    [y] finite, the amount read back from the text of [x] is at most the
    amount read back from the text of [y]. *)
Theorem format_currency_monotone (x y : float) :
  (0 <=? x) = true -> (x <=? y) = true -> is_finite y = true ->
  exists (sx sy : bool) (nx ny : N),
    read_currency (format_currency x) = Some (sx, nx) /\
    read_currency (format_currency y) = Some (sy, ny) /\
    (nx <= ny)%N.
Proof.
  rewrite !leb_spec, Prim2SF_zero. intros H0 Hle Hfy.
  apply is_finite_SF in Hfy.
  assert (Hfx : SF_is_finite (Prim2SF x) = true).
  { destruct (Prim2SF x) as [sx|[|]| |sx mx ex]; try reflexivity;
      try discriminate.
    destruct (Prim2SF y); discriminate. }
  exists (SF_sign (Prim2SF x)), (SF_sign (Prim2SF y)),
    (Z.to_N (SF_scaled 0 (Prim2SF x))), (Z.to_N (SF_scaled 0 (Prim2SF y))).
  unfold read_currency, format_currency.
  change (Ascii.eqb "$" "$") with true. cbv iota.
  rewrite !format_f_reads_back by assumption.
  split; [reflexivity|]. split; [reflexivity|].
  apply Z2N.inj_le; try apply SF_scaled_nonneg.
  apply SF_scaled_monotone; auto using Prim2SF_valid.
Qed.

(** X15. The durations of the summary table: for every month count the widgets
    allow, the text printed with one decimal is the month count over twelve
    rounded to the nearest tenth, and a tie goes to the even tenth (3 months
    are shown as 0.2 years, 9 months as 0.8). *)
Theorem duration_text_rounds_months (a : Z) :
  0 <= a <= 36 ->
  exists d : float,
    float_int_truediv a 12 = Ok d /\
    read_fixed (format_f false 1 d) = Some (false, Z.to_N (duration_tenths a)).
Proof.
  intros Ha.
  pose proof (all_from_spec duration_text_ok 37 0) as Hall.
  specialize (Hall ltac:(vm_compute; reflexivity) a ltac:(lia)).
  unfold duration_text_ok in Hall.
  destruct (float_int_truediv a 12) as [d|]; [|discriminate].
  exists d. split; [reflexivity|].
  destruct (read_fixed (format_f false 1 d)) as [[[|] n]|]; try discriminate.
  apply Z.eqb_eq in Hall. now rewrite <- Hall, N2Z.id.
Qed.

End Formatted.

(** ** The statements above at concrete inputs *)

Lemma calculations_returns_on_widget_counts_nan :
  let p := with_total_contract_value scenario nan in
  valid_counts p /\ exists r, calculations p = Ok r /\ run p r.
Proof.
  cbv zeta.
  assert (Hc : valid_counts (with_total_contract_value scenario nan))
    by (split; cbn; lia).
  split; [exact Hc|].
  exact (calculations_returns_on_widget_counts
           (with_total_contract_value scenario nan) Hc).
Defined.

Lemma zero_division_iff_no_phases_scenario :
  let p := with_num_phases scenario 0 in
  (calculations p = Raise ZeroDivisionError <-> num_phases p = 0) /\
  (num_phases p <> 0 -> exists r, calculations p = Ok r).
Proof.
  cbv zeta.
  apply (zero_division_iff_no_phases (with_num_phases scenario 0)); cbn; lia.
Defined.

Lemma zero_contract_value_zero_figures_scenario :
  let p := scenario in
  valid p /\
  exists r,
    calculations (with_total_contract_value p 0%float) = Ok r /\
    amounts_all (fun x => is_zero x = true) r.
Proof.
  cbv zeta. split; [vm_compute; reflexivity|].
  apply (zero_contract_value_zero_figures scenario). vm_compute; reflexivity.
Defined.

Lemma single_phase_figures_scenario :
  let p := with_num_phases scenario 1 in
  valid p /\
  exists r,
    calculations p = Ok r /\
    phase_contract_value r = total_contract_value p /\
    apg_value_phased r = apg_value_orig r /\
    apg_total_cost_phased r = apg_cost_per_phase r /\
    pg_total_cost_phased r = pg_cost_per_phase r.
Proof.
  cbv zeta. split; [vm_compute; reflexivity|].
  apply (single_phase_figures (with_num_phases scenario 1));
    [vm_compute; reflexivity | reflexivity].
Defined.

Lemma format_currency_reads_back_half :
  let x := 1234567.5%float in
  is_finite x = true /\
  exists n : N,
    read_currency (format_currency x) = Some (SF_sign (Prim2SF x), n) /\
    (Qabs (inject_Z (Z.of_N n) - SF_abs_value (Prim2SF x)) <= 1 # 2)%Q.
Proof.
  cbv zeta. split; [vm_compute; reflexivity|].
  apply (format_currency_reads_back 1234567.5%float). vm_compute; reflexivity.
Defined.

Lemma format_one_decimal_reads_back_quarter :
  let x := 0.25%float in
  is_finite x = true /\
  exists n : N,
    read_fixed (format_f false 1 x) = Some (SF_sign (Prim2SF x), n) /\
    (Qabs (inject_Z (Z.of_N n) - 10 * SF_abs_value (Prim2SF x)) <= 1 # 2)%Q.
Proof.
  cbv zeta. split; [vm_compute; reflexivity|].
  apply (format_one_decimal_reads_back 0.25%float). vm_compute; reflexivity.
Defined.

Lemma format_currency_grouping_apg_value :
  let x := 128000000%float in
  is_finite x = true /\
  exists body : list ascii,
    format_currency x
    = String "$"
        (string_of_list_ascii (sign_text (SF_sign (Prim2SF x)) ++ body)) /\
    filter keep body = digits_of (SF_scaled 0 (Prim2SF x)) /\
    length body
    = (length (digits_of (SF_scaled 0 (Prim2SF x)))
       + (length (digits_of (SF_scaled 0 (Prim2SF x))) - 1) / 3)%nat /\
    forall i, (i < length body)%nat ->
      (nth i (rev body) "0"%char = ","%char <-> i mod 4 = 3)%nat.
Proof.
  cbv zeta. split; [vm_compute; reflexivity|].
  apply (format_currency_grouping 128000000%float). vm_compute; reflexivity.
Defined.

Lemma format_currency_small_negative_quarter :
  let x := (-0.25)%float in
  (-0.5 <=? x)%float = true /\ (x <? 0)%float = true /\
  format_currency x = "$-0"%string.
Proof.
  cbv zeta. split; [vm_compute; reflexivity|].
  split; [vm_compute; reflexivity|].
  apply (format_currency_small_negative (-0.25)%float); vm_compute; reflexivity.
Defined.

Lemma total_cost_cells_nonnegative_scenario :
  let p := scenario in
  valid p /\
  exists r,
    calculations p = Ok r /\
    shows_no_negative_amount (format_currency (total_cost_orig r)) /\
    shows_no_negative_amount (format_currency (total_cost_phased r)).
Proof.
  cbv zeta. split; [vm_compute; reflexivity|].
  apply (total_cost_cells_nonnegative scenario). vm_compute; reflexivity.
Defined.

Lemma format_currency_monotone_halves :
  let x := 2.5%float in
  let y := 3.5%float in
  (0 <=? x)%float = true /\ (x <=? y)%float = true /\ is_finite y = true /\
  exists (sx sy : bool) (nx ny : N),
    read_currency (format_currency x) = Some (sx, nx) /\
    read_currency (format_currency y) = Some (sy, ny) /\
    (nx <= ny)%N.
Proof.
  cbv zeta. split; [vm_compute; reflexivity|].
  split; [vm_compute; reflexivity|]. split; [vm_compute; reflexivity|].
  apply (format_currency_monotone 2.5%float 3.5%float); vm_compute; reflexivity.
Defined.

Lemma duration_text_rounds_months_quarter :
  let a := 3 in
  0 <= a <= 36 /\
  exists d : float,
    float_int_truediv a 12 = Ok d /\
    read_fixed (format_f false 1 d) = Some (false, Z.to_N (duration_tenths a)).
Proof.
  cbv zeta. split; [lia|].
  apply (duration_text_rounds_months 3). lia.
Defined.
